(** * Query interpretation and hybrid retrieval of the device-log chatbot

    A shallow embedding of [chatbot.js] (and of the embedding request of
    [ingest-logs.js]): the classifier, the two extractors, the filter
    normaliser, the retrieval calls, the context assembler and the row
    flattening, together with the properties of the specification.

    Strings are lists of code units; the code units are those below 256,
    with the white space, line terminators and case mapping that JavaScript
    gives them. *)

From Stdlib Require Import Ascii String List Bool Arith NArith Lia DecimalString.
From stdpp Require Import base option list gmap strings.

Import ListNotations.
Set Warnings "-register-all".
Local Open Scope string_scope.
Local Open Scope list_scope.

(** ** Strings and character classes *)

Module Str.

Definition of_string (s : string) : list ascii := list_ascii_of_string s.

Definition code (c : ascii) : N := N_of_ascii c.

Definition in_range (lo hi : N) (c : ascii) : bool :=
  (N.leb lo (code c) && N.leb (code c) hi)%bool.

Definition is_upper : ascii -> bool := in_range 65 90.
Definition is_lower : ascii -> bool := in_range 97 122.
Definition is_digit : ascii -> bool := in_range 48 57.

(** [\s]: WhiteSpace and LineTerminator (TAB, LF, VT, FF, CR, SP, NBSP). *)
Definition is_space (c : ascii) : bool :=
  (in_range 9 13 c || N.eqb (code c) 32 || N.eqb (code c) 160)%bool.

(** LineTerminator: the characters [.] does not match (LF, CR). *)
Definition is_line_terminator (c : ascii) : bool :=
  (N.eqb (code c) 10 || N.eqb (code c) 13)%bool.

(** [.] without the [s] flag. *)
Definition is_dot (c : ascii) : bool := negb (is_line_terminator c).

(** [\w], used by [\b]. *)
Definition is_word (c : ascii) : bool :=
  (is_upper c || is_lower c || is_digit c || N.eqb (code c) 95)%bool.

(** The class [[a-z0-9_.]] under the [i] flag. *)
Definition is_field_char (c : ascii) : bool :=
  (is_lower c || is_upper c || is_digit c
   || N.eqb (code c) 95 || N.eqb (code c) 46)%bool.

(** The class of the single and the double quote. *)
Definition is_quote (c : ascii) : bool :=
  (N.eqb (code c) 39 || N.eqb (code c) 34)%bool.

(** [String.prototype.toLowerCase], one code unit at a time: A-Z and the
    Latin-1 capitals (all of C0-DE but the multiplication sign). *)
Definition lower_char (c : ascii) : ascii :=
  if (is_upper c
      || (in_range 192 222 c && negb (N.eqb (code c) 215)))%bool
  then ascii_of_N (code c + 32) else c.

Definition toLowerCase (s : list ascii) : list ascii := map lower_char s.

(** A pattern letter under the [i] flag: the input character is the letter
    in either case.  Only ASCII letters occur in the patterns, and no
    character above 127 is canonicalised to one of them. *)
Definition eq_ci (p c : ascii) : bool :=
  if (is_upper c) then Ascii.eqb p (ascii_of_N (code c + 32))
  else Ascii.eqb p c.

(** [String.prototype.trim]. *)
Fixpoint trimStart (s : list ascii) : list ascii :=
  match s with
  | c :: r => if is_space c then trimStart r else s
  | [] => []
  end.

Definition trimEnd (s : list ascii) : list ascii :=
  rev (trimStart (rev s)).

Definition trim (s : list ascii) : list ascii := trimEnd (trimStart s).

(** [replace(/<class>/g, "")]: every character of the class is deleted. *)
Definition strip (cls : ascii -> bool) (s : list ascii) : list ascii :=
  List.filter (fun c => negb (cls c)) s.

Fixpoint eqb (a b : list ascii) : bool :=
  match a, b with
  | [], [] => true
  | x :: a', y :: b' => (Ascii.eqb x y && eqb a' b')%bool
  | _, _ => false
  end.

(** [s.startsWith(p)], with the rest of [s] when it does. *)
Fixpoint strip_prefix (p s : list ascii) : option (list ascii) :=
  match p, s with
  | [], _ => Some s
  | x :: p', y :: s' => if Ascii.eqb x y then strip_prefix p' s' else None
  | _ :: _, [] => None
  end.

(** [Array.prototype.join]. *)
Fixpoint join (sep : list ascii) (parts : list (list ascii)) : list ascii :=
  match parts with
  | [] => []
  | [p] => p
  | p :: ps => p ++ sep ++ join sep ps
  end.

End Str.

Coercion Str.of_string : string >-> list.

(** ** Regular expressions

    Each pattern of the source is written with backtracking matchers in
    continuation-passing style: a matcher takes what follows it in the
    pattern and is run on the preceding character (for [\b]) and the rest
    of the input.  The first alternative that lets the whole pattern
    succeed wins, as in the JavaScript matcher. *)

Module Re.

Section Combinators.
Context {R : Type}.

Definition cont := option ascii -> list ascii -> option R.

Definition orelse (k1 k2 : cont) : cont :=
  fun prev s =>
    match k1 prev s with
    | Some r => Some r
    | None => k2 prev s
    end.

(** One character of a class. *)
Definition chr (p : ascii -> bool) (k : cont) : cont :=
  fun _ s =>
    match s with
    | c :: r => if p c then k (Some c) r else None
    | [] => None
    end.

(** A literal word under the [i] flag. *)
Fixpoint lit (w : list ascii) (k : cont) : cont :=
  match w with
  | [] => k
  | x :: w' => chr (Str.eq_ci x) (lit w' k)
  end.

(** [c+], greedy: the longest run first. *)
Fixpoint plus (p : ascii -> bool) (k : cont) (prev : option ascii)
    (s : list ascii) : option R :=
  match s with
  | c :: r =>
      if p c then
        match plus p k (Some c) r with
        | Some x => Some x
        | None => k (Some c) r
        end
      else None
  | [] => None
  end.

(** [c+?], lazy: the shortest run first. *)
Fixpoint plus_lazy (p : ascii -> bool) (k : cont) (prev : option ascii)
    (s : list ascii) : option R :=
  match s with
  | c :: r =>
      if p c then
        match k (Some c) r with
        | Some x => Some x
        | None => plus_lazy p k (Some c) r
        end
      else None
  | [] => None
  end.

(** [c*], greedy. *)
Definition star (p : ascii -> bool) (k : cont) : cont :=
  orelse (plus p k) k.

Definition is_word_opt (c : option ascii) : bool :=
  match c with
  | Some x => Str.is_word x
  | None => false
  end.

(** [\b]. *)
Definition word_boundary (k : cont) : cont :=
  fun prev s =>
    if xorb (is_word_opt prev) (is_word_opt (head s)) then k prev s
    else None.

(** [$] at the end of the pattern. *)
Definition eos (r : R) : cont :=
  fun _ s => match s with [] => Some r | _ :: _ => None end.

(** The end of a pattern that is not anchored at its end. *)
Definition accept (r : R) : cont := fun _ _ => Some r.

(** A capturing group: the continuation receives the text the group
    matched. *)
Definition capture (m : cont -> cont) (k : list ascii -> cont) : cont :=
  fun prev s =>
    m (fun prev' s' => k (take (length s - length s') s) prev' s') prev s.

(** A pattern without [^] is tried at every position, leftmost first. *)
Fixpoint search (m : cont) (prev : option ascii) (s : list ascii)
    : option R :=
  match m prev s with
  | Some x => Some x
  | None =>
      match s with
      | c :: r => search m (Some c) r
      | [] => None
      end
  end.

(** [(?:list|show|find)] *)
Definition verb (k : cont) : cont :=
  orelse (lit "list" k) (orelse (lit "show" k) (lit "find" k)).

(** [(?:where|with|having|for)] *)
Definition clause_word (k : cont) : cont :=
  orelse (lit "where" k)
    (orelse (lit "with" k) (orelse (lit "having" k) (lit "for" k))).

(** [(?:for|with|where|having)] *)
Definition filter_word (k : cont) : cont :=
  orelse (lit "for" k)
    (orelse (lit "with" k) (orelse (lit "where" k) (lit "having" k))).
End Combinators.

(** [/^show\s+(all\s+)?logs\b/i] *)
Definition show_logs (s : list ascii) : option unit :=
  let logs := lit "logs" (word_boundary (accept tt)) in
  lit "show"
    (plus Str.is_space (orelse (lit "all" (plus Str.is_space logs)) logs))
    None s.

(** [/^list\s+unique\s+(.+)$/i], with group 1. *)
Definition list_unique (s : list ascii) : option (list ascii) :=
  lit "list"
    (plus Str.is_space
      (lit "unique"
        (plus Str.is_space
          (capture (plus Str.is_dot) (fun x => eos x)))))
    None s.

(** [/^(list|show|find)\b/i] *)
Definition leading_verb (s : list ascii) : option unit :=
  verb (word_boundary (accept tt)) None s.

(** [/^(?:list|show|find)\s+(.+?)(?:\s+(?:where|with|having|for)\s+(.+))?$/i],
    with groups 1 and 2; group 2 is undefined when the optional part did
    not take part in the match. *)
Definition fields_and_filter (s : list ascii)
    : option (list ascii * option (list ascii)) :=
  verb
    (plus Str.is_space
      (capture (plus_lazy Str.is_dot) (fun f =>
        orelse
          (plus Str.is_space
            (clause_word
              (plus Str.is_space
                (capture (plus Str.is_dot) (fun v => eos (f, Some v))))))
          (eos (f, None)))))
    None s.

(** [/(?:for|with|where|having)\s+(G)/i] where the group G is [.*]; the
    result is group 1. *)
Definition filter_clause (s : list ascii) : option (list ascii) :=
  search
    (filter_word
      (plus Str.is_space (capture (star Str.is_dot) (fun x => accept x))))
    None s.

End Re.

(** ** [String.prototype.split] *)

Module Split.

(** The piece in progress is the head of the result. *)
Definition push_char (c : ascii) (parts : list (list ascii))
    : list (list ascii) :=
  match parts with
  | p :: ps => (c :: p) :: ps
  | [] => [[c]]
  end.

(** [s.split(/and|,/)] and [s.split(/,|and/)]: the two alternatives never
    match at the same position, so the two patterns split alike. *)
Fixpoint and_or_comma (s : list ascii) : list (list ascii) :=
  match s with
  | [] => [[]]
  | c :: r =>
      if Ascii.eqb c "," then [] :: and_or_comma r
      else
        match r with
        | n :: d :: r' =>
            if (Ascii.eqb c "a" && Ascii.eqb n "n" && Ascii.eqb d "d")%bool
            then [] :: and_or_comma r'
            else push_char c (and_or_comma r)
        | _ => push_char c (and_or_comma r)
        end
  end.

(** [s.split(ch)] for a one-character string separator. *)
Fixpoint on_char (sep : ascii) (s : list ascii) : list (list ascii) :=
  match s with
  | [] => [[]]
  | c :: r =>
      if Ascii.eqb c sep then [] :: on_char sep r
      else push_char c (on_char sep r)
  end.

(** [s.split(/\s+/)]: a separator is a maximal run of white space. *)
Fixpoint on_spaces (s : list ascii) : list (list ascii) :=
  match s with
  | [] => [[]]
  | c :: r =>
      if Str.is_space c then
        match r with
        | c' :: _ => if Str.is_space c' then on_spaces r
                     else [] :: on_spaces r
        | [] => [] :: on_spaces r
        end
      else push_char c (on_spaces r)
  end.

End Split.

(** ** JavaScript values *)

(** The members every plain object inherits from [Object.prototype]. *)
Inductive builtin :=
| ObjectConstructor
| ObjectPrototype
| PrototypeMethod (name : list ascii).

Inductive value :=
| VUndefined
| VNull
| VBool (b : bool)
| VNumber (repr : list ascii)
| VString (s : list ascii)
| VArray (items : list value)
| VObject (props : list (list ascii * value))
| VBuiltin (b : builtin).

(** A stored document is a plain object: its own properties in order. *)
Definition document := list (list ascii * value).

(** What [FIELD_ALIASES[x.toLowerCase()] || x] evaluates to: a string, or a
    member the table inherits. *)
Inductive name :=
| Named (s : list ascii)
| Inherited (b : builtin).

#[global] Instance builtin_eq_dec : EqDecision builtin.
Proof. solve_decision. Defined.
#[global] Instance name_eq_dec : EqDecision name.
Proof. solve_decision. Defined.

Definition nonempty (s : list ascii) : bool :=
  match s with [] => false | _ :: _ => true end.

(** Own-property lookup. *)
Fixpoint assoc {A} (k : list ascii) (props : list (list ascii * A))
    : option A :=
  match props with
  | [] => None
  | (k', v) :: rest => if Str.eqb k k' then Some v else assoc k rest
  end.

Definition prototype_methods : list (list ascii) :=
  [ Str.of_string "hasOwnProperty"; Str.of_string "isPrototypeOf";
    Str.of_string "propertyIsEnumerable"; Str.of_string "toLocaleString";
    Str.of_string "toString"; Str.of_string "valueOf";
    Str.of_string "__defineGetter__"; Str.of_string "__defineSetter__";
    Str.of_string "__lookupGetter__"; Str.of_string "__lookupSetter__" ].

Definition object_prototype_member (p : list ascii) : option builtin :=
  if Str.eqb p "constructor" then Some ObjectConstructor
  else if Str.eqb p "__proto__" then Some ObjectPrototype
  else if existsb (Str.eqb p) prototype_methods then Some (PrototypeMethod p)
  else None.

(** [obj[p]] on a plain object: the own property, else the inherited
    member, else [undefined]. *)
Definition member (obj : document) (p : list ascii) : value :=
  match assoc p obj with
  | Some v => v
  | None =>
      match object_prototype_member p with
      | Some b => VBuiltin b
      | None => VUndefined
      end
  end.

(** ToBoolean. A number is kept as its decimal text. *)
Definition truthy (v : value) : bool :=
  match v with
  | VUndefined | VNull => false
  | VBool b => b
  | VNumber r => negb (Str.eqb r "0" || Str.eqb r "NaN")
  | VString s => nonempty s
  | VArray _ | VObject _ | VBuiltin _ => true
  end.

Definition nullish (v : value) : bool :=
  match v with
  | VUndefined | VNull => true
  | _ => false
  end.

Definition builtin_to_string (b : builtin) : list ascii :=
  match b with
  | ObjectConstructor => Str.of_string "function Object() { [native code] }"
  | ObjectPrototype => Str.of_string "[object Object]"
  | PrototypeMethod n =>
      Str.of_string "function " ++ n ++ Str.of_string "() { [native code] }"
  end.

(** ToString, as a template literal applies it, where it returns (see
    [printable] below). *)
Fixpoint to_string (v : value) : list ascii :=
  match v with
  | VUndefined => Str.of_string "undefined"
  | VNull => Str.of_string "null"
  | VBool true => Str.of_string "true"
  | VBool false => Str.of_string "false"
  | VNumber r => r
  | VString s => s
  | VArray items =>
      Str.join ","
        (map (fun x => if nullish x then [] else to_string x) items)
  | VObject _ => Str.of_string "[object Object]"
  | VBuiltin b => builtin_to_string b
  end.

(** ToString returns on [v]: a plain object answers through the [toString]
    it inherits unless it has an own property of that name, and an array
    joins the strings of its elements.  On an object with an own
    [toString] that cannot be called the conversion throws a TypeError. *)
Fixpoint printable (v : value) : bool :=
  match v with
  | VArray items => forallb (fun x => nullish x || printable x) items
  | VObject props =>
      negb (existsb (fun kv : list ascii * value => Str.eqb kv.1 "toString")
              props)
  | _ => true
  end.

(** ToPropertyKey of a name used as a property key. *)
Definition to_key (n : name) : list ascii :=
  match n with
  | Named s => s
  | Inherited b => builtin_to_string b
  end.

Definition name_truthy (n : name) : bool :=
  match n with
  | Named s => nonempty s
  | Inherited _ => true
  end.

(** ** The alias table *)

Definition FIELD_ALIASES : list (list ascii * list ascii) :=
  [ (Str.of_string "deviceid", Str.of_string "DeviceId");
    (Str.of_string "organizationid", Str.of_string "OrganizationId");
    (Str.of_string "organisationid", Str.of_string "OrganizationId");
    (Str.of_string "userid", Str.of_string "UserId");
    (Str.of_string "tagid", Str.of_string "TagId");
    (Str.of_string "timestamp", Str.of_string "Timestamp");
    (Str.of_string "date", Str.of_string "Date");
    (Str.of_string "hour", Str.of_string "Hour");
    (Str.of_string "month", Str.of_string "Month");
    (Str.of_string "year", Str.of_string "Year");
    (Str.of_string "index", Str.of_string "Index");
    (Str.of_string "appname", Str.of_string "AppName");
    (Str.of_string "loglevel", Str.of_string "LogLevel");
    (Str.of_string "loglabel", Str.of_string "LogLabel");
    (Str.of_string "logsummary", Str.of_string "LogSummary");
    (Str.of_string "createdat", Str.of_string "CreatedAt");
    (Str.of_string "devicename", Str.of_string "LogData.DeviceName");
    (Str.of_string "devicetype", Str.of_string "LogData.DeviceType");
    (Str.of_string "model", Str.of_string "LogData.Model");
    (Str.of_string "loggedevent", Str.of_string "LogData.LoggedEvent");
    (Str.of_string "messagetype", Str.of_string "LogData.MessageType");
    (Str.of_string "state", Str.of_string "LogData.State");
    (Str.of_string "statecode", Str.of_string "LogData.StateCode");
    (Str.of_string "tag", Str.of_string "LogData.Tag");
    (Str.of_string "description", Str.of_string "LogData.Description");
    (Str.of_string "ward", Str.of_string "LogData.Ward");
    (Str.of_string "epochcount", Str.of_string "LogData.EpochCount");
    (Str.of_string "executionduration",
     Str.of_string "LogData.ExecutionDuration");
    (Str.of_string "timezone", Str.of_string "LogData.Timezone");
    (Str.of_string "requestid", Str.of_string "LogData.RequestId");
    (Str.of_string "alertcode", Str.of_string "LogData.TagDetail.AlertCode");
    (Str.of_string "alertlevel",
     Str.of_string "LogData.TagDetail.AlertLevel");
    (Str.of_string "headertime",
     Str.of_string "LogData.TagDetail.HeaderTime");
    (Str.of_string "key", Str.of_string "LogData.TagDetail.Key");
    (Str.of_string "tagdetailmessage",
     Str.of_string "LogData.TagDetail.Message");
    (Str.of_string "tagdetailrequestid",
     Str.of_string "LogData.TagDetail.RequestId") ].

(** [table[k]] for a table that is a plain object of strings. *)
Definition table_get (table : list (list ascii * list ascii))
    (k : list ascii) : option name :=
  match assoc k table with
  | Some canonical => Some (Named canonical)
  | None => option_map Inherited (object_prototype_member k)
  end.

(** [table[x.toLowerCase()] || x] *)
Definition resolve_in (table : list (list ascii * list ascii))
    (x : list ascii) : name :=
  match table_get table (Str.toLowerCase x) with
  | Some n => if name_truthy n then n else Named x
  | None => Named x
  end.

Definition resolve : list ascii -> name := resolve_in FIELD_ALIASES.

(** ** Filters *)

(** A filter value: a literal to equal, or [{ $regex, $options }]. *)
Inductive predicate :=
| Exact (v : list ascii)
| Regex (pattern options : list ascii).

(** [if (filters[k])]: a literal is truthy unless it is the empty string,
    the pattern object always. *)
Definition predicate_truthy (p : predicate) : bool :=
  match p with
  | Exact v => nonempty v
  | Regex _ _ => true
  end.

(** [["DeviceId", "OrganizationId", "UserId", "TagId"].includes(key)] *)
Definition identifier_fields : list (list ascii) :=
  [ Str.of_string "DeviceId"; Str.of_string "OrganizationId";
    Str.of_string "UserId"; Str.of_string "TagId" ].

Definition is_identifier (key : name) : bool :=
  match key with
  | Named s => existsb (Str.eqb s) identifier_fields
  | Inherited _ => false
  end.

(** [s.trim().replace(/<quote>/g, "")] *)
Definition unquote (s : list ascii) : list ascii :=
  Str.strip Str.is_quote (Str.trim s).

(** [f.trim().replace(/[^a-z0-9_.]/gi, "")] *)
Definition clean (s : list ascii) : list ascii :=
  Str.strip (fun c => negb (Str.is_field_char c)) (Str.trim s).

Section Extractors.
Variable table : list (list ascii * list ascii).

(** The body of the [forEach] of [extractFiltersOnly]. *)
Definition add_condition (filters : gmap (list ascii) predicate)
    (cond : list ascii) : gmap (list ascii) predicate :=
  match map unquote (Split.on_char "=" cond) with
  | k :: v :: _ =>
      if (nonempty k && nonempty v)%bool then
        let key := resolve_in table k in
        if is_identifier key then <[to_key key := Exact v]> filters
        else <[to_key key :=
                 Regex (Str.of_string "^" ++ v ++ Str.of_string "$") "i"]>
               filters
      else filters
  | _ => filters
  end.

Definition extractFiltersOnly_in (query : list ascii)
    : gmap (list ascii) predicate :=
  match Re.filter_clause query with
  | Some clause => fold_left add_condition (Split.and_or_comma clause) ∅
  | None => ∅
  end.

(** The body of the [forEach] over the field tokens. *)
Definition add_field (fields : list name) (f : list ascii) : list name :=
  let cleaned := clean f in
  if nonempty cleaned then fields ++ [resolve_in table cleaned]
  else fields.

(** The pair [[key, value]] of a filter token; [value] is [None] when it
    is [undefined]. *)
Definition key_value (token : list ascii)
    : list ascii * option (list ascii) :=
  if existsb (Ascii.eqb "=") token then
    match map unquote (Split.on_char "=" token) with
    | k :: v :: _ => (k, Some v)
    | k :: [] => (k, None)
    | [] => ([], None)
    end
  else
    match Split.on_spaces (Str.trim token) with
    | k :: rest => (k, Some (Str.join " " rest))
    | [] => ([], None)
    end.

(** The body of the [forEach] over the filter tokens. *)
Definition add_token (filters : gmap (list ascii) predicate)
    (token : list ascii) : gmap (list ascii) predicate :=
  match key_value token with
  | (key, Some value) =>
      if (nonempty key && nonempty value)%bool then
        let resolvedKey := resolve_in table key in
        if is_identifier resolvedKey
        then <[to_key resolvedKey := Exact value]> filters
        else <[to_key resolvedKey := Regex value "i"]> filters
      else filters
  | (_, None) => filters
  end.

Record fields_and_filters := {
  fields : list name;
  filters : gmap (list ascii) predicate
}.

Definition extractFieldsAndFilters_in (query : list ascii)
    : fields_and_filters :=
  match Re.fields_and_filter query with
  | Some (rawFields, rawFilter) =>
      {| fields := fold_left add_field (Split.and_or_comma rawFields) [];
         filters :=
           match rawFilter with
           | Some clause =>
               if nonempty clause
               then fold_left add_token (Split.and_or_comma clause) ∅
               else ∅
           | None => ∅
           end |}
  | None => {| fields := []; filters := ∅ |}
  end.
End Extractors.

Definition extractFiltersOnly := extractFiltersOnly_in FIELD_ALIASES.
Definition extractFieldsAndFilters := extractFieldsAndFilters_in FIELD_ALIASES.

(** ** The classifier: the order of the tests of [main] *)

Inductive intent :=
| ShowAllLogs
| ListUniqueField
| StructuredList
| SemanticFallback.

Definition isShowLogsQuery (q : list ascii) : bool :=
  bool_decide (is_Some (Re.show_logs (Str.trim q))).

Definition classify (question : list ascii) : intent :=
  if isShowLogsQuery question then ShowAllLogs
  else if bool_decide (is_Some (Re.list_unique question)) then ListUniqueField
  else if bool_decide (is_Some (Re.leading_verb (Str.trim question)))
       then StructuredList
  else SemanticFallback.

(** ** Calls that can throw *)

Inductive outcome (A : Type) :=
| Ok (a : A)
| Throw (message : list ascii).
Arguments Ok {A} a.
Arguments Throw {A} message.

#[global] Instance outcome_ret : MRet outcome := fun _ a => Ok a.
#[global] Instance outcome_bind : MBind outcome :=
  fun _ _ f m =>
    match m with
    | Ok a => f a
    | Throw e => Throw e
    end.

Fixpoint traverse {A B} (f : A -> outcome B) (l : list A)
    : outcome (list B) :=
  match l with
  | [] => Ok []
  | a :: r => b ← f a; bs ← traverse f r; Ok (b :: bs)
  end.

(** ** The collaborators: storage, embedding service, generation service *)

Definition EMBEDDING_MODEL : list ascii := Str.of_string "nomic-embed-text".
Definition CHAT_MODEL : list ascii := Str.of_string "mistral".

(** The [$vectorSearch] stage; [filter] is [None] while the property is
    not set. *)
Record vector_search := {
  index : list ascii;
  path : list ascii;
  queryVector : value;
  numCandidates : nat;
  similarity : list ascii;
  limit : nat;
  filter : option (gmap (list ascii) predicate)
}.

(** What the outside answers.  [storage_find] gives the documents of the
    cursor before [limit] is applied; the two services give the body
    [res.data] of the response. *)
Record world := {
  storage_connect : outcome unit;
  storage_close : outcome unit;
  storage_find :
    gmap (list ascii) predicate -> option (gset (list ascii)) ->
    outcome (list document);
  storage_distinct : name -> outcome (list value);
  storage_aggregate : list vector_search -> outcome (list document);
  post_embeddings : list ascii -> list ascii -> outcome value;
  post_generate : list ascii -> list ascii -> outcome value
}.

(** What a turn prints: one constructor per printing statement of
    [main], with the values the statement is given.  [Table head rows] is
    the call [printTable(rows, fields)], which prints the rows as a table
    or, when the table library fails, one line per row. *)
Inductive output :=
| Banner
| NoMatchingLogs
| LogHeader (ordinal : list ascii)
| LogBody (doc : document)
| NoUniqueValues (field : name)
| UniqueValuesFor (field : name)
| UniqueValue (v : value)
| SpecifyFields
| MongoFilters (f : gmap (list ascii) predicate)
| ProjectingFields (fs : list name)
| Table (head : list name) (rows : list (list value))
| Answer (text : list ascii)
| ErrorMessage (message : list ascii).

Inductive event :=
| Connect
| Close
| CallFind (f : gmap (list ascii) predicate)
    (projection : option (gset (list ascii))) (cap : nat)
| CallDistinct (field : name)
| CallAggregate (pipeline : list vector_search)
| CallEmbeddings (model prompt : list ascii)
| CallGenerate (model prompt : list ascii)
| Console (o : output).

(** A computation of a turn: the events so far and how it ended. *)
Definition io (A : Type) : Type := list event * outcome A.

Definition io_ret {A} (a : A) : io A := ([], Ok a).

Definition io_bind {A B} (m : io A) (f : A -> io B) : io B :=
  match m with
  | (t, Ok a) => let (t', r) := f a in (t ++ t', r)
  | (t, Throw e) => (t, Throw e)
  end.

Definition emit (e : event) : io unit := ([e], Ok tt).
Definition lift {A} (r : outcome A) : io A := ([], r).
Definition call {A} (e : event) (r : outcome A) : io A := ([e], r).

Declare Scope io_scope.
Delimit Scope io_scope with io.
Notation "'let*' x := m 'in' k" := (io_bind m (fun x => k))
  (at level 10, x pattern, m at level 100, k at level 200) : io_scope.
Notation "m ';;' k" := (io_bind m (fun _ => k))
  (at level 100, k at level 200, right associativity) : io_scope.

Fixpoint for_each {A} (f : A -> io unit) (l : list A) : io unit :=
  match l with
  | [] => io_ret tt
  | a :: r => (f a ;; for_each f r)%io
  end.

(** [l.forEach((a, i) => ...)], the index counted from [i]. *)
Fixpoint for_each_from {A} (i : nat) (f : nat -> A -> io unit) (l : list A)
    : io unit :=
  match l with
  | [] => io_ret tt
  | a :: r => (f i a ;; for_each_from (S i) f r)%io
  end.

Definition decimal (n : nat) : list ascii :=
  Str.of_string (DecimalString.NilEmpty.string_of_uint (Nat.to_uint n)).

Definition nl : list ascii := ["010"%char].

(** [fields.forEach((f) => (projection[f] = 1))]: the keys of the
    projection. *)
Definition projection_of (fs : list name) : gset (list ascii) :=
  list_to_set (map to_key fs).

(** [if (filters[k]) cleanFilters[k] = filters[k]] over the keys. *)
Definition clean_filters (flt : gmap (list ascii) predicate)
    : gmap (list ascii) predicate :=
  base.filter
    (fun kv : list ascii * predicate => predicate_truthy kv.2 = true) flt.

(** The built-in functions among the inherited members; [Object.prototype]
    is an object. *)
Definition is_function (b : builtin) : bool :=
  match b with
  | ObjectPrototype => false
  | ObjectConstructor | PrototypeMethod _ => true
  end.

(** The accessors [caller] and [arguments] of [Function.prototype], which
    throw when read on a built-in function. *)
Definition restricted_key (p : list ascii) : bool :=
  (Str.eqb p "caller" || Str.eqb p "arguments")%bool.

(** The message of the TypeError of such a read. *)
Definition restricted_read : list ascii :=
  Str.of_string "'caller', 'callee', and 'arguments' properties may not be accessed on strict mode functions or the arguments objects for calls to them".

Section Host.
(** Property reads on values that are neither plain objects nor
    [undefined] or [null] (strings, numbers, arrays, functions) are
    answered by the host's prototypes. *)
Variable host_member : value -> list ascii -> value.

(** [v[p]] *)
Definition get (v : value) (p : list ascii) : outcome value :=
  match v with
  | VUndefined | VNull =>
      Throw (Str.of_string "Cannot read properties of " ++ to_string v
             ++ Str.of_string " (reading '" ++ p ++ Str.of_string "')")
  | VObject props => Ok (member props p)
  | VBuiltin b =>
      if (is_function b && restricted_key p)%bool
      then Throw restricted_read
      else Ok (host_member v p)
  | _ => Ok (host_member v p)
  end.

(** [v?.[p]] *)
Definition get_optional (v : value) (p : list ascii) : outcome value :=
  if nullish v then Ok VUndefined else get v p.

(** *** chatbot.js *)

Definition queryMongo (w : world) (fs : list name)
    (flt : gmap (list ascii) predicate) : io (list document) :=
  let projection := projection_of fs in
  let cleanFilters := clean_filters flt in
  (call Connect (storage_connect w) ;;
   emit (Console (MongoFilters cleanFilters)) ;;
   emit (Console (ProjectingFields fs)) ;;
   let* results :=
     call (CallFind cleanFilters (Some projection) 100)
          (storage_find w cleanFilters (Some projection)) in
   call Close (storage_close w) ;;
   io_ret (take 100 results))%io.

Definition generateEmbedding (w : world) (text : list ascii) : io value :=
  (let* data := call (CallEmbeddings EMBEDDING_MODEL text)
                     (post_embeddings w EMBEDDING_MODEL text) in
   lift (get data "embedding"))%io.

(** The stage [searchSimilarLogs] builds: [filters] is [None] when the
    argument is left out and the default [{}] applies. *)
Definition vectorSearchStage (embedding : value)
    (filters : option (gmap (list ascii) predicate)) : vector_search :=
  let filters :=
    match filters with
    | Some f => f
    | None => ∅
    end in
  {| index := Str.of_string "vector_index";
     path := Str.of_string "embedding";
     queryVector := embedding;
     numCandidates := 100;
     similarity := Str.of_string "cosine";
     limit := 15;
     filter := if bool_decide (filters = ∅) then None else Some filters |}.

Definition searchSimilarLogs (w : world) (embedding : value)
    (filters : option (gmap (list ascii) predicate))
    : io (list document) :=
  let stage := vectorSearchStage embedding filters in
  (call Connect (storage_connect w) ;;
   let* results :=
     call (CallAggregate [stage]) (storage_aggregate w [stage]) in
   call Close (storage_close w) ;;
   io_ret results)%io.

Definition prompt_of (context question : list ascii) : list ascii :=
  Str.of_string "You are an assistant helping debug medical device logs. Use the context to answer the user's question."
  ++ nl ++ nl ++ Str.of_string "Context:" ++ nl ++ context
  ++ nl ++ nl ++ Str.of_string "Question: " ++ question
  ++ nl ++ nl ++ Str.of_string "Answer:".

Definition askMistral (w : world) (context question : list ascii)
    : io value :=
  let prompt := prompt_of context question in
  (let* data := call (CallGenerate CHAT_MODEL prompt)
                     (post_generate w CHAT_MODEL prompt) in
   lift (get data "response"))%io.

(** The template of one document, [i] counted from 0. *)
Definition format_doc (i : nat) (doc : document) : outcome (list ascii) :=
  deviceId ← get (VObject doc) "DeviceId";
  summary ← get (VObject doc) "LogSummary";
  logData ← get_optional (VObject doc) "LogData";
  state ← get_optional logData "State";
  model ← get_optional logData "Model";
  ward ← get_optional logData "Ward";
  timestamp ← get (VObject doc) "Timestamp";
  Ok (Str.of_string "# Log " ++ decimal (i + 1) ++ nl
      ++ Str.of_string "DeviceId: " ++ to_string deviceId ++ nl
      ++ Str.of_string "Summary: " ++ to_string summary ++ nl
      ++ Str.of_string "State: " ++ to_string state ++ nl
      ++ Str.of_string "Model: " ++ to_string model ++ nl
      ++ Str.of_string "Ward: " ++ to_string ward ++ nl
      ++ Str.of_string "Timestamp: " ++ to_string timestamp).

Fixpoint format_docs (i : nat) (docs : list document)
    : outcome (list (list ascii)) :=
  match docs with
  | [] => Ok []
  | d :: r => b ← format_doc i d; bs ← format_docs (S i) r; Ok (b :: bs)
  end.

Definition formatContext (docs : list document) : outcome (list ascii) :=
  blocks ← format_docs 0 docs;
  Ok (Str.join (nl ++ nl) blocks).

(** [let val = res; for (const p of parts) val = val && val[p];] *)
Fixpoint walk (val : value) (parts : list (list ascii)) : outcome value :=
  match parts with
  | [] => Ok val
  | p :: rest =>
      if truthy val then next ← get val p; walk next rest
      else walk val rest
  end.

(** [v ?? ""] *)
Definition or_empty (v : value) : value :=
  if nullish v then VString [] else v.

(** One cell of a row: the arrow function mapped over [fields]. *)
Definition cell (res : document) (f : name) : outcome value :=
  match f with
  | Named s =>
      if existsb (Ascii.eqb ".") s then
        val ← walk (VObject res) (Split.on_char "." s);
        Ok (or_empty val)
      else
        val ← get (VObject res) s;
        Ok (or_empty val)
  | Inherited _ => Throw (Str.of_string "f.includes is not a function")
  end.

Definition flatten (results : list document) (fs : list name)
    : outcome (list (list value)) :=
  traverse (fun res => traverse (cell res) fs) results.

(** [const { embedding, ...docWithoutEmbedding } = doc] *)
Definition without_embedding (doc : document) : document :=
  List.filter (fun kv => negb (Str.eqb kv.1 "embedding")) doc.

Definition show_logs_branch (w : world) (question : list ascii) : io unit :=
  let flt := extractFiltersOnly question in
  (call Connect (storage_connect w) ;;
   let* found := call (CallFind flt None 50) (storage_find w flt None) in
   let docs := take 50 found in
   call Close (storage_close w) ;;
   match docs with
   | [] => emit (Console NoMatchingLogs)
   | _ :: _ =>
       for_each_from 0
         (fun i doc =>
            emit (Console (LogHeader (decimal (i + 1)))) ;;
            emit (Console (LogBody (without_embedding doc))))
         docs
   end)%io.

Definition list_unique_branch (w : world) (group1 : list ascii) : io unit :=
  let rawField := clean group1 in
  let field := resolve rawField in
  (call Connect (storage_connect w) ;;
   let* uniqueValues :=
     call (CallDistinct field) (storage_distinct w field) in
   call Close (storage_close w) ;;
   match uniqueValues with
   | [] => emit (Console (NoUniqueValues field))
   | _ :: _ =>
       emit (Console (UniqueValuesFor field)) ;;
       for_each (fun v => emit (Console (UniqueValue v))) uniqueValues
   end)%io.

Definition structured_branch (w : world) (question : list ascii)
    : io unit :=
  let ff := extractFieldsAndFilters question in
  match fields ff with
  | [] => emit (Console SpecifyFields)
  | _ :: _ =>
      (let* results := queryMongo w (fields ff) (filters ff) in
       match results with
       | [] => emit (Console NoMatchingLogs)
       | _ :: _ =>
           let* rows := lift (flatten results (fields ff)) in
           emit (Console (Table (fields ff) rows))
       end)%io
  end.

Definition fallback_branch (w : world) (question : list ascii) : io unit :=
  (let* embedding := generateEmbedding w question in
   let* docs := searchSimilarLogs w embedding None in
   let* context := lift (formatContext docs) in
   let* answer := askMistral w context question in
   emit (Console (Answer (to_string answer))))%io.

(** The body of the [try] of one turn. *)
Definition dispatch (w : world) (question : list ascii) : io unit :=
  if isShowLogsQuery question then show_logs_branch w question
  else
    match Re.list_unique question with
    | Some group1 => list_unique_branch w group1
    | None =>
        if bool_decide (is_Some (Re.leading_verb (Str.trim question)))
        then structured_branch w question
        else fallback_branch w question
    end.

(** [try { ... } catch (err) { console.error(err.message) }] *)
Definition catch (m : io unit) : list event :=
  match m with
  | (t, Ok _) => t
  | (t, Throw e) => t ++ [Console (ErrorMessage e)]
  end.

Definition is_exit (question : list ascii) : bool :=
  let q := Str.toLowerCase (Str.trim question) in
  (Str.eqb q "exit" || Str.eqb q "q")%bool.

(** One pass of the loop: [None] when the loop is left. *)
Definition turn (w : world) (question : list ascii)
    : option (list event) :=
  if is_exit question then None else Some (catch (dispatch w question)).

(** The loop of [main] over the lines read, each with what the outside
    answers during its turn. *)
Fixpoint loop (inputs : list (world * list ascii)) : list event :=
  match inputs with
  | [] => []
  | (w, question) :: rest =>
      match turn w question with
      | None => []
      | Some t => t ++ loop rest
      end
  end.

Definition main (inputs : list (world * list ascii)) : list event :=
  Console Banner :: loop inputs.

(** *** ingest-logs.js *)

Definition ingest_generateEmbedding (w : world) (text : list ascii)
    : io value :=
  (let* data := call (CallEmbeddings EMBEDDING_MODEL text)
                     (post_embeddings w EMBEDDING_MODEL text) in
   let* embedding := lift (get data "embedding") in
   if truthy embedding then io_ret embedding
   else lift (Throw (Str.of_string "No embedding returned")))%io.
End Host.

(** *** ingest-logs.js: the text of a log and the ingestion run *)

(** [items.join(sep)]: [undefined] and [null] give the empty string. *)
Definition join_values (sep : list ascii) (items : list value) : list ascii :=
  Str.join sep (map (fun x => if nullish x then [] else to_string x) items).

(** The array [parts] of [extractText], in the order it is built. *)
Definition text_parts (host : value -> list ascii -> value) (doc : document)
    : outcome (list value) :=
  deviceId ← get host (VObject doc) "DeviceId";
  org ← get host (VObject doc) "OrganizationId";
  timestamp ← get host (VObject doc) "Timestamp";
  summary ← get host (VObject doc) "LogSummary";
  logData ← get_optional host (VObject doc) "LogData";
  description ← get_optional host logData "Description";
  model ← get_optional host logData "Model";
  state ← get_optional host logData "State";
  tagDetail ← get_optional host logData "TagDetail";
  message ← get_optional host tagDetail "Message";
  alertCode ← get_optional host tagDetail "AlertCode";
  logLevel ← get host (VObject doc) "LogLevel";
  deviceType ← get_optional host logData "DeviceType";
  ward ← get_optional host logData "Ward";
  loggedEvent ← get_optional host logData "LoggedEvent";
  tag ← get_optional host logData "Tag";
  Ok [ VString (Str.of_string "DeviceId: " ++ to_string deviceId);
       VString (Str.of_string "Org: " ++ to_string org);
       timestamp; summary; description; model; state; message; alertCode;
       logLevel; deviceType; ward; loggedEvent; tag ].

(** [parts.filter(Boolean).join(" | ")] *)
Definition extractText (host : value -> list ascii -> value) (doc : document)
    : outcome (list ascii) :=
  parts ← text_parts host doc;
  Ok (join_values " | " (List.filter truthy parts)).

(** What storage answers during a run: whether the client can be made,
    the connection, each step of the cursor over the documents without an
    embedding (a document, or a failure of [hasNext] or [next]), each
    [updateOne] by [_id] and new embedding, and the close. *)
Record ingest_store := {
  ingest_client : outcome unit;
  ingest_connect : outcome unit;
  ingest_cursor : list (outcome document);
  ingest_update : value -> value -> outcome unit;
  ingest_close : outcome unit
}.

Inductive ingest_line :=
| Skipping (id : list ascii)
| Embedded (id : list ascii)
| EmbeddingError (id message : list ascii)
| Done (count : nat)
| RunError (message : list ascii).

Inductive ingest_event :=
| IngestConnect
| IngestRequest (e : event)
| IngestUpdate (id embedding : value)
| IngestLog (line : ingest_line)
| IngestClose.

(** The inner [try] for one document: the embedding request, the update
    and the line of success. *)
Definition ingest_attempt (host : value -> list ascii -> value) (w : world)
    (s : ingest_store) (doc : document) (text : list ascii)
    : list ingest_event * outcome unit :=
  let requested := ingest_generateEmbedding host w text in
  match requested.2 with
  | Throw e => (map IngestRequest requested.1, Throw e)
  | Ok embedding =>
      let id := member doc "_id" in
      match ingest_update s id embedding with
      | Throw e =>
          (map IngestRequest requested.1 ++ [IngestUpdate id embedding],
           Throw e)
      | Ok _ =>
          (map IngestRequest requested.1
           ++ [IngestUpdate id embedding; IngestLog (Embedded (to_string id))],
           Ok tt)
      end
  end.

(** The [while] loop over the cursor, [count] being the documents embedded
    so far; it throws when the cursor does. *)
Fixpoint ingest_loop (host : value -> list ascii -> value) (w : world)
    (s : ingest_store) (cursor : list (outcome document)) (count : nat)
    : list ingest_event * outcome nat :=
  match cursor with
  | [] => ([], Ok count)
  | Throw e :: _ => ([], Throw e)
  | Ok doc :: rest =>
      match extractText host doc with
      | Throw e => ([], Throw e)
      | Ok text =>
          if (negb (nonempty text) || negb (nonempty (Str.trim text)))%bool
          then
            let next := ingest_loop host w s rest count in
            (IngestLog (Skipping (to_string (member doc "_id"))) :: next.1,
             next.2)
          else
            let attempt := ingest_attempt host w s doc text in
            match attempt.2 with
            | Ok _ =>
                let next := ingest_loop host w s rest (S count) in
                (attempt.1 ++ next.1, next.2)
            | Throw e =>
                let next := ingest_loop host w s rest count in
                (attempt.1
                 ++ IngestLog
                      (EmbeddingError (to_string (member doc "_id")) e)
                 :: next.1,
                 next.2)
            end
      end
  end.

(** [main] of ingest-logs.js: the client is made outside the [try]; the
    [catch] prints the error of the run and the [finally] closes.  The
    outcome is that of the promise [main()] returns. *)
Definition ingest_main (host : value -> list ascii -> value) (w : world)
    (s : ingest_store) : list ingest_event * outcome unit :=
  match ingest_client s with
  | Throw e => ([], Throw e)
  | Ok _ =>
      let tried : list ingest_event * outcome unit :=
        match ingest_connect s with
        | Throw e => ([IngestConnect], Throw e)
        | Ok _ =>
            let run := ingest_loop host w s (ingest_cursor s) 0 in
            match run.2 with
            | Ok count =>
                (IngestConnect :: run.1 ++ [IngestLog (Done count)], Ok tt)
            | Throw e => (IngestConnect :: run.1, Throw e)
            end
        end in
      let caught :=
        match tried.2 with
        | Ok _ => tried.1
        | Throw e => tried.1 ++ [IngestLog (RunError e)]
        end in
      (caught ++ [IngestClose], ingest_close s)
  end.

(** ** What the patterns accept, in words *)

Module Shape.

(** [x] is the word [w] in some mix of upper and lower case. *)
Fixpoint is_word_ci (w x : list ascii) : bool :=
  match w, x with
  | [], [] => true
  | p :: w', c :: x' => (Str.eq_ci p c && is_word_ci w' x')%bool
  | _, _ => false
  end.

(** A non-empty run of white space. *)
Definition spaces (x : list ascii) : bool :=
  (nonempty x && forallb Str.is_space x)%bool.

(** A non-empty run of characters other than line terminators. *)
Definition text (x : list ascii) : bool :=
  (nonempty x && forallb Str.is_dot x)%bool.

(** What follows does not continue a word. *)
Definition ends_word (rest : list ascii) : bool :=
  negb (Re.is_word_opt (head rest)).

(** "show [all] logs" and then anything that does not continue the word. *)
Definition show_all_logs (s : list ascii) : Prop :=
  ∃ show gap logs rest,
    is_word_ci "show" show = true ∧ spaces gap = true ∧
    is_word_ci "logs" logs = true ∧ ends_word rest = true ∧
    (s = show ++ gap ++ logs ++ rest ∨
     ∃ all gap', is_word_ci "all" all = true ∧ spaces gap' = true ∧
       s = show ++ gap ++ all ++ gap' ++ logs ++ rest).

(** "list unique <field>" up to the end of the input. *)
Definition list_unique (s : list ascii) : Prop :=
  ∃ verb gap unique gap' field,
    is_word_ci "list" verb = true ∧ spaces gap = true ∧
    is_word_ci "unique" unique = true ∧ spaces gap' = true ∧
    text field = true ∧
    s = verb ++ gap ++ unique ++ gap' ++ field.

Definition is_verb (v : list ascii) : bool :=
  (is_word_ci "list" v || is_word_ci "show" v || is_word_ci "find" v)%bool.

(** A leading "list", "show" or "find" token. *)
Definition leading_verb (s : list ascii) : Prop :=
  ∃ v rest, is_verb v = true ∧ ends_word rest = true ∧ s = v ++ rest.

End Shape.

(** ** The vocabulary of the statements *)

(** The character before the position reached after reading [x]. *)
Definition after (prev : option ascii) (x : list ascii) : option ascii :=
  match last x with
  | Some c => Some c
  | None => prev
  end.

(** The entry [key ↦ p] was made from a pair with a non-empty key and the
    non-empty value [v]: an identifier key carries the literal [v], any
    other key the pattern built from [v] ([anchored]: between [^] and [$])
    with the option [i]. *)
Definition normalised (anchored : bool) (key : list ascii) (p : predicate)
    : Prop :=
  ∃ k v, nonempty k = true ∧ nonempty v = true ∧ key = to_key (resolve k) ∧
    ((key ∈ identifier_fields ∧ p = Exact v) ∨
     ((key ∉ identifier_fields) ∧
      p = Regex (if anchored
                 then (Str.of_string "^" ++ v ++ Str.of_string "$")
                 else v) "i")).

Module Grammar.

Definition is_clause_word (w : list ascii) : bool :=
  (Shape.is_word_ci "where" w || Shape.is_word_ci "with" w
   || Shape.is_word_ci "having" w || Shape.is_word_ci "for" w)%bool.

(** The input reads: verb, white space, [rawFields]; and then either
    nothing, or white space, a clause word, white space and [clause]. *)
Definition parsed (query rawFields : list ascii)
    (rawFilter : option (list ascii)) : Prop :=
  ∃ v gap rest,
    query = v ++ gap ++ rawFields ++ rest ∧
    Shape.is_verb v = true ∧ Shape.spaces gap = true ∧
    Shape.text rawFields = true ∧
    match rawFilter with
    | None => rest = []
    | Some clause =>
        ∃ gap1 w gap2,
          rest = gap1 ++ w ++ gap2 ++ clause ∧
          Shape.spaces gap1 = true ∧ is_clause_word w = true ∧
          Shape.spaces gap2 = true ∧ Shape.text clause = true
    end.

End Grammar.

Module Pieces.

(** [s.includes(w)] *)
Fixpoint includes (w s : list ascii) : bool :=
  match Str.strip_prefix w s with
  | Some _ => true
  | None =>
      match s with
      | [] => false
      | _ :: r => includes w r
      end
  end.

Definition is_separator (sep : list ascii) : Prop :=
  sep = Str.of_string "," ∨ sep = Str.of_string "and".

(** Neither a comma nor the letters "and" occur in the piece. *)
Definition separator_free (p : list ascii) : Prop :=
  includes "," p = false ∧ includes "and" p = false.

(** The pieces with a separator between each two neighbours. *)
Fixpoint interleave (pieces seps : list (list ascii)) : list ascii :=
  match pieces, seps with
  | p :: ps, sep :: seps' => p ++ sep ++ interleave ps seps'
  | p :: _, [] => p
  | [], _ => []
  end.

(** [pieces] cuts [s] at its separators. *)
Definition cut (s : list ascii) (pieces : list (list ascii)) : Prop :=
  ∃ seps, length pieces = S (length seps) ∧ Forall is_separator seps ∧
          interleave pieces seps = s ∧ Forall separator_free pieces.

End Pieces.

(** The field list as the specification words it: the segment is cut at
    every comma and at the word "and" standing between white space, each
    token is cleaned, empty tokens are dropped, and the rest is looked up
    in the alias table by its lower-case form, unknown names passing
    through. *)
Module Claimed.

Fixpoint cut_at_and (current : list (list ascii))
    (words : list (list ascii)) : list (list ascii) :=
  match words with
  | [] => [Str.join " " (rev current)]
  | w :: ws =>
      if Str.eqb w "and"
      then Str.join " " (rev current) :: cut_at_and [] ws
      else cut_at_and (w :: current) ws
  end.

Definition tokens (segment : list ascii) : list (list ascii) :=
  flat_map (fun piece => cut_at_and [] (Split.on_spaces (Str.trim piece)))
           (Split.on_char "," segment).

Definition alias (x : list ascii) : list ascii :=
  match assoc (Str.toLowerCase x) FIELD_ALIASES with
  | Some canonical => canonical
  | None => x
  end.

Definition field_list (segment : list ascii) : list (list ascii) :=
  map alias (List.filter nonempty (map clean (tokens segment))).

End Claimed.

(** [field] is what the alias table gives for [token]: the canonical path
    of its lower-case form, or the token itself when the lower-case form is
    no key of the table.  Nothing is said of a token whose lower-case form
    names a member the table inherits. *)
Definition table_resolved (token : list ascii) (field : name) : Prop :=
  match assoc (Str.toLowerCase token) FIELD_ALIASES with
  | Some canonical => field = Named canonical
  | None =>
      object_prototype_member (Str.toLowerCase token) = None ->
      field = Named token
  end.

(** Worlds and documents to run the turns on. *)
Module Sample.

(** A host on which strings, numbers and arrays have no members. *)
Definition host : value -> list ascii -> value := fun _ _ => VUndefined.

Definition reading : document :=
  [ (Str.of_string "DeviceId", VString (Str.of_string "ABC123"));
    (Str.of_string "LogSummary",
     VString (Str.of_string "Connection established"));
    (Str.of_string "LogData",
     VObject [ (Str.of_string "State", VString (Str.of_string "CONNECTED"));
               (Str.of_string "Ward", VString (Str.of_string "ICU")) ]);
    (Str.of_string "embedding",
     VArray [VNumber (Str.of_string "0.1"); VNumber (Str.of_string "0.2")]) ].

(** A record with no nested object at all. *)
Definition bare : document :=
  [ (Str.of_string "DeviceId", VString (Str.of_string "XYZ9"));
    (Str.of_string "Timestamp",
     VString (Str.of_string "2024-01-15T10:30:00Z")) ].

Definition reply : value :=
  VObject [ (Str.of_string "response", VString (Str.of_string "No logs.")) ].

(** Storage holds [stored] and finds nothing similar; the embedding
    service answers [embedding_body]; the generator answers [reply]. *)
Definition world_with (stored : list document) (embedding_body : value)
    : world :=
  {| storage_connect := Ok tt;
     storage_close := Ok tt;
     storage_find := fun _ _ => Ok stored;
     storage_distinct := fun _ => Ok [];
     storage_aggregate := fun _ => Ok [];
     post_embeddings := fun _ _ => Ok embedding_body;
     post_generate := fun _ _ => Ok reply |}.

Definition vector : value :=
  VArray [VNumber (Str.of_string "0.5"); VNumber (Str.of_string "0.25")].

End Sample.

(** The nested object on the way along [parts] is missing: some step of the
    path reads [undefined] or [null]. *)
Inductive absent : value -> list (list ascii) -> Prop :=
| absent_here doc p rest :
    nullish (member doc p) = true -> absent (VObject doc) (p :: rest)
| absent_below doc p rest :
    absent (member doc p) rest -> absent (VObject doc) (p :: rest).

(** The records a turn displays, in order. *)
Definition displayed (t : list event) : list document :=
  flat_map (fun e => match e with
                     | Console (LogBody doc) => [doc]
                     | _ => []
                     end) t.

(** The stored record but for its [embedding]: that field is gone, every
    other field is as stored, and nothing else is in the record. *)
Definition only_embedding_removed (stored shown : document) : Prop :=
  assoc "embedding" shown = None ∧
  (∀ k, k ≠ Str.of_string "embedding" -> assoc k shown = assoc k stored) ∧
  (∀ kv, In kv shown <-> In kv stored ∧ kv.1 ≠ Str.of_string "embedding").

(** An aggregate call whose stages carry no [filter]. *)
Definition sends_no_filter (e : event) : Prop :=
  match e with
  | CallAggregate pipeline => Forall (fun stage => filter stage = None) pipeline
  | _ => True
  end.

(** What a turn does up to its first request when storage can be
    reached: the request is made from the intent, the field list and the
    filter mapping of the question. *)
Definition plan (question : list ascii) : list event :=
  match classify question with
  | ShowAllLogs =>
      [Connect; CallFind (extractFiltersOnly question) None 50]
  | ListUniqueField =>
      match Re.list_unique question with
      | Some group1 => [Connect; CallDistinct (resolve (clean group1))]
      | None => []
      end
  | StructuredList =>
      let ff := extractFieldsAndFilters question in
      match fields ff with
      | [] => [Console SpecifyFields]
      | _ :: _ =>
          [ Connect;
            Console (MongoFilters (clean_filters (filters ff)));
            Console (ProjectingFields (fields ff));
            CallFind (clean_filters (filters ff))
                     (Some (projection_of (fields ff))) 100 ]
      end
  | SemanticFallback => [CallEmbeddings EMBEDDING_MODEL question]
  end.

(** A turn that does not leave the loop. *)
Definition goes_on (input : world * list ascii) : Prop :=
  is_exit input.2 = false.

(** What a structured turn prints last over the documents found. *)
Definition structured_result (paths : list (list ascii))
    (found : list document) (last : output) : Prop :=
  match found with
  | [] => last = NoMatchingLogs
  | _ :: _ =>
      ∃ rows, last = Table (map Named paths) rows ∧
              length rows = Nat.min 100 (length found) ∧
              Forall (fun row => length row = length paths) rows
  end.

(** Worlds in which something fails. *)
Module Faulty.

(** Storage cannot be reached. *)
Definition unreachable (message : list ascii) : world :=
  {| storage_connect := Throw message;
     storage_close := Ok tt;
     storage_find := fun _ _ => Ok [];
     storage_distinct := fun _ => Ok [];
     storage_aggregate := fun _ => Ok [];
     post_embeddings := fun _ _ => Ok (VObject []);
     post_generate := fun _ _ => Ok Sample.reply |}.

(** The embedding service refuses every text but [accepted]. *)
Definition embeds_only (accepted : list ascii) : world :=
  {| storage_connect := Ok tt;
     storage_close := Ok tt;
     storage_find := fun _ _ => Ok [];
     storage_distinct := fun _ => Ok [];
     storage_aggregate := fun _ => Ok [];
     post_embeddings := fun _ text =>
       if Str.eqb text accepted
       then Ok (VObject [(Str.of_string "embedding", Sample.vector)])
       else Throw (Str.of_string "Request failed with status code 500");
     post_generate := fun _ _ => Ok Sample.reply |}.

(** Storage can be reached but fails every [find]. *)
Definition find_fails (message : list ascii) : world :=
  {| storage_connect := Ok tt;
     storage_close := Ok tt;
     storage_find := fun _ _ => Throw message;
     storage_distinct := fun _ => Ok [];
     storage_aggregate := fun _ => Ok [];
     post_embeddings := fun _ _ => Ok (VObject []);
     post_generate := fun _ _ => Ok Sample.reply |}.

End Faulty.

(** The events of a turn on the connection to storage. *)
Definition is_connection (e : event) : bool :=
  match e with
  | Connect | Close => true
  | _ => false
  end.

Definition connections (t : list event) : list event :=
  List.filter is_connection t.

(** The event [e] is a request to storage and storage answered it. *)
Definition answered (w : world) (e : event) : Prop :=
  match e with
  | CallFind flt projection _ =>
      ∃ docs, storage_find w flt projection = Ok docs
  | CallDistinct field => ∃ vs, storage_distinct w field = Ok vs
  | CallAggregate pipeline => ∃ docs, storage_aggregate w pipeline = Ok docs
  | _ => False
  end.

(** The connection succeeded, the one close of [t] comes right after a
    request of [t] that storage answered, the one connect of [t] comes
    before that request, and nothing else in [t] connects or closes. *)
Definition closed_after_answer (w : world) (t : list event) : Prop :=
  storage_connect w = Ok tt ∧
  ∃ pre request post,
    t = pre ++ request :: Close :: post ∧
    connections pre = [Connect] ∧ connections post = [] ∧
    answered w request.

(** A computation that does not connect, or leaves its connection open and
    fails, or closes right after the answer to its request. *)
Definition disciplined {A} (w : world) (m : io A) : Prop :=
  connections m.1 = [] ∨
  (connections m.1 = [Connect] ∧ ∃ e, m.2 = Throw e) ∨
  closed_after_answer w m.1.

(** Lines of an ingestion run. *)
Module Run.

Definition is_embedded (e : ingest_event) : bool :=
  match e with
  | IngestLog (Embedded _) => true
  | _ => false
  end.

Definition is_embedding_error (e : ingest_event) : bool :=
  match e with
  | IngestLog (EmbeddingError _ _) => true
  | _ => false
  end.

Definition is_update (e : ingest_event) : bool :=
  match e with
  | IngestUpdate _ _ => true
  | _ => false
  end.

Definition is_request (e : ingest_event) : bool :=
  match e with
  | IngestRequest _ => true
  | _ => false
  end.

Definition count (p : ingest_event -> bool) (t : list ingest_event) : nat :=
  length (List.filter p t).

(** Neither the connection nor the close. *)
Definition inside (e : ingest_event) : Prop :=
  match e with
  | IngestConnect | IngestClose => False
  | _ => True
  end.

(** No document is skipped at this event. *)
Definition skips_nothing (e : ingest_event) : Prop :=
  match e with
  | IngestLog (Skipping _) => False
  | _ => True
  end.

(** An update that stores an embedding stores a truthy one. *)
Definition stores_an_embedding (e : ingest_event) : Prop :=
  match e with
  | IngestUpdate _ embedding => truthy embedding = true
  | _ => True
  end.

(** Every value the run converts to a string for [doc] can be converted:
    the identifier of the log lines, the two values of the template
    strings and the parts that are joined. *)
Definition printable_log (host : value -> list ascii -> value)
    (doc : document) : Prop :=
  printable (member doc "_id") = true ∧
  printable (member doc "DeviceId") = true ∧
  printable (member doc "OrganizationId") = true ∧
  ∀ parts, text_parts host doc = Ok parts ->
           Forall (fun v => printable v = true) parts.

(** A store that holds [docs] without embeddings and accepts everything. *)
Definition store (docs : list document) : ingest_store :=
  {| ingest_client := Ok tt;
     ingest_connect := Ok tt;
     ingest_cursor := map Ok docs;
     ingest_update := fun _ _ => Ok tt;
     ingest_close := Ok tt |}.

Definition other : document :=
  [ (Str.of_string "_id", VString (Str.of_string "65a1"));
    (Str.of_string "DeviceId", VString (Str.of_string "D2"));
    (Str.of_string "LogData",
     VObject [ (Str.of_string "TagDetail",
                VObject [ (Str.of_string "Message",
                           VString (Str.of_string "Low battery")) ]) ]) ].

End Run.

(** Field paths of a row. *)
Module Path.

(** No part is [caller] or [arguments]. *)
Definition unrestricted (parts : list (list ascii)) : bool :=
  forallb (fun p => negb (restricted_key p)) parts.

(** The walk along the path reads neither of them below the record
    itself (on the record, a plain object, both read as any other
    name). *)
Definition safe (path : list ascii) : bool :=
  unrestricted (tail (Split.on_char "." path)).

End Path.

(** The template of the context. *)
Module Context.

(** The block of [doc] under the ordinal [ordinal], with the texts shown
    for the three nested fields. *)
Definition block (ordinal : nat) (doc : document)
    (state model ward : list ascii) : list ascii :=
  Str.of_string "# Log " ++ decimal ordinal ++ nl
  ++ Str.of_string "DeviceId: " ++ to_string (member doc "DeviceId") ++ nl
  ++ Str.of_string "Summary: " ++ to_string (member doc "LogSummary") ++ nl
  ++ Str.of_string "State: " ++ state ++ nl
  ++ Str.of_string "Model: " ++ model ++ nl
  ++ Str.of_string "Ward: " ++ ward ++ nl
  ++ Str.of_string "Timestamp: " ++ to_string (member doc "Timestamp").

(** [shown] is what the template shows for [field] of the nested object
    [LogData] of [doc]: "undefined" when the nested object is absent, the
    member's text when it is a plain object.  Nothing is said when
    [LogData] is a string, a number or an array. *)
Definition nested (doc : document) (field shown : list ascii) : Prop :=
  match member doc "LogData" with
  | VUndefined | VNull => shown = Str.of_string "undefined"
  | VObject data => shown = to_string (member data field)
  | _ => True
  end.

(** [text] is the block of the record [doc] at index [i], counted from 0. *)
Definition rendered (i : nat) (doc : document) (text : list ascii) : Prop :=
  ∃ state model ward,
    text = block (i + 1) doc state model ward ∧
    nested doc "State" state ∧ nested doc "Model" model ∧
    nested doc "Ward" ward.

(** Every value the template converts to a string can be converted. *)
Definition printable_record (host : value -> list ascii -> value)
    (doc : document) : Prop :=
  printable (member doc "DeviceId") = true ∧
  printable (member doc "LogSummary") = true ∧
  printable (member doc "Timestamp") = true ∧
  ∀ field v,
    field ∈ [Str.of_string "State"; Str.of_string "Model";
             Str.of_string "Ward"] ->
    get_optional host (member doc "LogData") field = Ok v ->
    printable v = true.

End Context.

(** Every cell of the rows can be converted to a string, as the printing
    of a table needs. *)
Definition printable_rows (rows : list (list value)) : Prop :=
  Forall (Forall (fun v => printable v = true)) rows.

(** ** Facts about the matchers *)

Section MatcherFacts.
Context {R : Type}.
Implicit Types (k : @Re.cont R) (prev : option ascii) (s x : list ascii).

Lemma after_cons prev c x : after prev (c :: x) = after (Some c) x.
Proof.
  unfold after. destruct x as [|d x]; [reflexivity|].
  change (last (c :: d :: x)) with (last (d :: x)).
  destruct (last (d :: x)) eqn:E; [reflexivity|].
  apply last_None in E. discriminate.
Qed.

Lemma lit_complete w k prev x rest :
  Shape.is_word_ci w x = true ->
  Re.lit w k prev (x ++ rest) = k (after prev x) rest.
Proof.
  revert prev x. induction w as [|p w IH]; intros prev [|c x] H;
    simpl in H; try discriminate.
  - reflexivity.
  - apply andb_true_iff in H as [Hc Hx].
    simpl. unfold Re.chr. rewrite Hc, after_cons. apply IH, Hx.
Qed.

Lemma lit_sound w k prev s r :
  Re.lit w k prev s = Some r ->
  ∃ x rest, s = x ++ rest ∧ Shape.is_word_ci w x = true ∧
            k (after prev x) rest = Some r.
Proof.
  revert prev s. induction w as [|p w IH]; intros prev s H; simpl in H.
  - exists [], s. auto.
  - unfold Re.chr in H. destruct s as [|c s]; [discriminate|].
    destruct (Str.eq_ci p c) eqn:Hc; [|discriminate].
    apply IH in H as (x & rest & -> & Hx & Hk).
    exists (c :: x), rest. rewrite after_cons. simpl. rewrite Hc, Hx. auto.
Qed.

Lemma plus_sound p k prev s r :
  Re.plus p k prev s = Some r ->
  ∃ x rest, s = x ++ rest ∧ nonempty x = true ∧ forallb p x = true ∧
            k (after prev x) rest = Some r.
Proof.
  revert prev. induction s as [|c s IH]; intros prev H; simpl in H;
    [discriminate|].
  destruct (p c) eqn:Hc; [|discriminate].
  destruct (Re.plus p k (Some c) s) eqn:E.
  - injection H as ->.
    apply IH in E as (x & rest & -> & _ & Hx & Hk).
    exists (c :: x), rest. rewrite after_cons. simpl. rewrite Hc, Hx. auto.
  - exists [c], s. simpl. rewrite Hc. auto.
Qed.

Lemma plus_complete p k prev x rest :
  nonempty x = true -> forallb p x = true ->
  is_Some (k (after prev x) rest) ->
  is_Some (Re.plus p k prev (x ++ rest)).
Proof.
  revert prev. induction x as [|c x IH]; intros prev Hne Hx Hk;
    [discriminate|].
  simpl in Hx. apply andb_true_iff in Hx as [Hc Hx].
  rewrite after_cons in Hk. simpl. rewrite Hc.
  destruct x as [|d x].
  - simpl in *. destruct (Re.plus p k (Some c) rest); eauto.
  - specialize (IH (Some c) eq_refl Hx Hk).
    destruct IH as [r ->]. eauto.
Qed.

Lemma plus_lazy_sound p k prev s r :
  Re.plus_lazy p k prev s = Some r ->
  ∃ x rest, s = x ++ rest ∧ nonempty x = true ∧ forallb p x = true ∧
            k (after prev x) rest = Some r.
Proof.
  revert prev. induction s as [|c s IH]; intros prev H; simpl in H;
    [discriminate|].
  destruct (p c) eqn:Hc; [|discriminate].
  destruct (k (Some c) s) eqn:E.
  - injection H as ->. exists [c], s. simpl. rewrite Hc. auto.
  - apply IH in H as (x & rest & -> & _ & Hx & Hk).
    exists (c :: x), rest. rewrite after_cons. simpl. rewrite Hc, Hx. auto.
Qed.

Lemma orelse_Some k1 k2 prev s r :
  Re.orelse k1 k2 prev s = Some r ->
  k1 prev s = Some r ∨ k2 prev s = Some r.
Proof. unfold Re.orelse. destruct (k1 prev s); auto. Qed.

Lemma orelse_is_Some k1 k2 prev s :
  is_Some (Re.orelse k1 k2 prev s) <->
  is_Some (k1 prev s) ∨ is_Some (k2 prev s).
Proof.
  unfold Re.orelse. destruct (k1 prev s) eqn:E; split; eauto.
  intros [[? ?]|?]; [discriminate|assumption].
Qed.

Lemma verb_sound k prev s r :
  Re.verb k prev s = Some r ->
  ∃ v rest, s = v ++ rest ∧ Shape.is_verb v = true ∧
            k (after prev v) rest = Some r.
Proof.
  unfold Re.verb, Shape.is_verb. intros H.
  apply orelse_Some in H as [H|H]; [|apply orelse_Some in H as [H|H]];
    apply lit_sound in H as (x & rest & -> & Hx & Hk);
    exists x, rest; rewrite Hx, ?orb_true_r; auto.
Qed.

Lemma verb_complete k prev v rest :
  Shape.is_verb v = true ->
  is_Some (k (after prev v) rest) ->
  is_Some (Re.verb k prev (v ++ rest)).
Proof.
  unfold Re.verb, Shape.is_verb. intros Hv Hk.
  rewrite !orelse_is_Some.
  apply orb_true_iff in Hv as [Hv|Hv];
    [apply orb_true_iff in Hv as [Hv|Hv]|].
  - left. rewrite (lit_complete _ _ _ _ _ Hv). exact Hk.
  - right; left. rewrite (lit_complete _ _ _ _ _ Hv). exact Hk.
  - right; right. rewrite (lit_complete _ _ _ _ _ Hv). exact Hk.
Qed.
End MatcherFacts.

Lemma eq_ci_word p c :
  Str.eq_ci p c = true -> Str.is_word p = true -> Str.is_word c = true.
Proof.
  unfold Str.eq_ci. destruct (Str.is_upper c) eqn:U.
  - intros _ _. unfold Str.is_word. rewrite U. reflexivity.
  - intros E. apply Ascii.eqb_eq in E. subst. auto.
Qed.

Lemma word_ci_after w x prev :
  Shape.is_word_ci w x = true -> nonempty w = true ->
  forallb Str.is_word w = true ->
  Re.is_word_opt (after prev x) = true.
Proof.
  revert x prev. induction w as [|p w IH]; intros [|c x] prev H Hne Hw;
    simpl in *; try discriminate.
  apply andb_true_iff in H as [Hc Hx]. apply andb_true_iff in Hw as [Hp Hw].
  rewrite after_cons. destruct w as [|p' w].
  - destruct x; [|discriminate]. simpl. eapply eq_ci_word; eauto.
  - apply (IH x (Some c)); auto.
Qed.

Lemma verb_after v prev :
  Shape.is_verb v = true -> Re.is_word_opt (after prev v) = true.
Proof.
  unfold Shape.is_verb. intros H.
  apply orb_true_iff in H as [H|H]; [apply orb_true_iff in H as [H|H]|];
    eapply word_ci_after; eauto.
Qed.

Lemma show_logs_iff s :
  is_Some (Re.show_logs s) <-> Shape.show_all_logs s.
Proof.
  unfold Re.show_logs, Shape.show_all_logs. split.
  - intros [[] H].
    apply lit_sound in H as (show & s1 & -> & Hshow & H).
    apply plus_sound in H as (gap & s2 & -> & Hne & Hsp & H).
    assert (Hlogs : ∀ prev t,
      Re.lit "logs" (Re.word_boundary (Re.accept tt)) prev t = Some tt ->
      ∃ logs rest, t = logs ++ rest ∧ Shape.is_word_ci "logs" logs = true ∧
                   Shape.ends_word rest = true).
    { intros prev t Ht.
      apply lit_sound in Ht as (logs & rest & -> & Hlogs & Hb).
      exists logs, rest. repeat split; auto.
      unfold Re.word_boundary in Hb.
      rewrite (word_ci_after _ _ prev Hlogs) in Hb by reflexivity.
      unfold Shape.ends_word.
      destruct (Re.is_word_opt (head rest)); [discriminate|reflexivity]. }
    apply orelse_Some in H as [H|H].
    + apply lit_sound in H as (all & s3 & -> & Hall & H).
      apply plus_sound in H as (gap' & s4 & -> & Hne' & Hsp' & H).
      apply Hlogs in H as (logs & rest & -> & Hl & He).
      exists show, gap, logs, rest. repeat split; auto.
      { unfold Shape.spaces. rewrite Hne, Hsp. reflexivity. }
      right. exists all, gap'. repeat split; auto.
      unfold Shape.spaces. rewrite Hne', Hsp'. reflexivity.
    + apply Hlogs in H as (logs & rest & -> & Hl & He).
      exists show, gap, logs, rest. repeat split; auto.
      unfold Shape.spaces. rewrite Hne, Hsp. reflexivity.
  - intros (show & gap & logs & rest & Hshow & Hgap & Hlogs & Hend & Hs).
    apply andb_true_iff in Hgap as [Hne Hsp].
    assert (Hk : ∀ prev,
      is_Some (Re.lit "logs" (Re.word_boundary (Re.accept tt)) prev
                 (logs ++ rest))).
    { intros prev. rewrite (lit_complete _ _ _ _ _ Hlogs).
      unfold Re.word_boundary.
      rewrite (word_ci_after _ _ prev Hlogs) by reflexivity.
      unfold Shape.ends_word in Hend.
      destruct (Re.is_word_opt (head rest)); [discriminate|].
      simpl. eauto. }
    destruct Hs as [->|(all & gap' & Hall & Hgap' & ->)].
    + rewrite (lit_complete _ _ _ _ _ Hshow).
      apply plus_complete; auto.
      apply orelse_is_Some. right. apply Hk.
    + apply andb_true_iff in Hgap' as [Hne' Hsp'].
      rewrite (lit_complete _ _ _ _ _ Hshow).
      apply plus_complete; auto.
      apply orelse_is_Some. left.
      rewrite (lit_complete _ _ _ _ _ Hall).
      apply plus_complete; auto.
Qed.

Lemma list_unique_iff s :
  is_Some (Re.list_unique s) <-> Shape.list_unique s.
Proof.
  unfold Re.list_unique, Shape.list_unique, Re.capture. split.
  - intros [r H].
    apply lit_sound in H as (verb & s1 & -> & Hlist & H).
    apply plus_sound in H as (gap & s2 & -> & Hne & Hsp & H).
    apply lit_sound in H as (unique & s3 & -> & Huniq & H).
    apply plus_sound in H as (gap' & s4 & -> & Hne' & Hsp' & H).
    apply plus_sound in H as (field & rest & -> & Hnf & Hdot & H).
    destruct rest; [|discriminate].
    exists verb, gap, unique, gap', field.
    unfold Shape.spaces, Shape.text.
    rewrite Hne, Hsp, Hne', Hsp', Hnf, Hdot, app_nil_r. simpl. auto 10.
  - intros (verb & gap & unique & gap' & field & Hlist & Hgap & Huniq
            & Hgap' & Hfield & ->).
    apply andb_true_iff in Hgap as [Hne Hsp].
    apply andb_true_iff in Hgap' as [Hne' Hsp'].
    apply andb_true_iff in Hfield as [Hnf Hdot].
    rewrite (lit_complete _ _ _ _ _ Hlist).
    apply plus_complete; auto.
    rewrite (lit_complete _ _ _ _ _ Huniq).
    apply plus_complete; auto.
    rewrite <- (app_nil_r field).
    apply plus_complete; auto; simpl; eauto.
Qed.

Lemma leading_verb_iff s :
  is_Some (Re.leading_verb s) <-> Shape.leading_verb s.
Proof.
  unfold Re.leading_verb, Shape.leading_verb, Shape.ends_word. split.
  - intros [[] H].
    apply verb_sound in H as (v & rest & -> & Hv & H).
    exists v, rest. repeat split; auto.
    unfold Re.word_boundary in H. rewrite (verb_after _ _ Hv) in H.
    destruct (Re.is_word_opt (head rest)); [discriminate|reflexivity].
  - intros (v & rest & Hv & Hend & ->).
    apply verb_complete; auto.
    unfold Re.word_boundary. rewrite (verb_after _ _ Hv).
    destruct (Re.is_word_opt (head rest)); [discriminate|].
    simpl. eauto.
Qed.

(** ** The classifier *)

(** C1. The classifier follows the order of the specification, the first
    match winning and letter case being ignored: an input that, trimmed,
    reads "show [all] logs" (whatever follows the word) is show-all-logs;
    otherwise an input that reads "list unique <field>" is
    list-unique-field; otherwise an input that, trimmed, starts with the
    token "list", "show" or "find" is structured-list; every other input
    is semantic-fallback. *)
Theorem classify_decision_order (question : list ascii) :
  (Shape.show_all_logs (Str.trim question) ->
     classify question = ShowAllLogs) ∧
  (¬ Shape.show_all_logs (Str.trim question) ->
   Shape.list_unique question ->
     classify question = ListUniqueField) ∧
  (¬ Shape.show_all_logs (Str.trim question) ->
   ¬ Shape.list_unique question ->
   Shape.leading_verb (Str.trim question) ->
     classify question = StructuredList) ∧
  (¬ Shape.show_all_logs (Str.trim question) ->
   ¬ Shape.list_unique question ->
   ¬ Shape.leading_verb (Str.trim question) ->
     classify question = SemanticFallback).
Proof.
  unfold classify, isShowLogsQuery.
  rewrite <- show_logs_iff, <- list_unique_iff, <- leading_verb_iff.
  repeat split; intros; repeat case_bool_decide; tauto.
Qed.

Lemma classify_decision_order_witness :
  classify "SHOW  All Logs for deviceid=ABC123" = ShowAllLogs ∧
  classify "list unique ward" = ListUniqueField ∧
  classify "find model" = StructuredList ∧
  classify "What errors occurred yesterday?" = SemanticFallback.
Proof.
  split_and!.
  - apply (proj1 (classify_decision_order
                    (Str.of_string "SHOW  All Logs for deviceid=ABC123"))).
    apply show_logs_iff. vm_compute. eauto.
  - apply (proj1 (proj2 (classify_decision_order
                           (Str.of_string "list unique ward")))).
    + rewrite <- show_logs_iff. vm_compute. apply is_Some_None.
    + apply list_unique_iff. vm_compute. eauto.
  - apply (proj1 (proj2 (proj2 (classify_decision_order
                                  (Str.of_string "find model"))))).
    + rewrite <- show_logs_iff. vm_compute. apply is_Some_None.
    + rewrite <- list_unique_iff. vm_compute. apply is_Some_None.
    + apply leading_verb_iff. vm_compute. eauto.
  - apply (proj2 (proj2 (proj2 (classify_decision_order
             (Str.of_string "What errors occurred yesterday?"))))).
    + rewrite <- show_logs_iff. vm_compute. apply is_Some_None.
    + rewrite <- list_unique_iff. vm_compute. apply is_Some_None.
    + rewrite <- leading_verb_iff. vm_compute. apply is_Some_None.
Defined.

(** ** The filter normaliser *)

Lemma Str_eqb_eq a b : Str.eqb a b = true <-> a = b.
Proof.
  revert b. induction a as [|x a IH]; intros [|y b]; simpl.
  - split; reflexivity.
  - split; discriminate.
  - split; discriminate.
  - rewrite andb_true_iff, Ascii.eqb_eq, IH.
    split; [intros [-> ->]; reflexivity|intros [= -> ->]; auto].
Qed.

Lemma Str_eqb_refl a : Str.eqb a a = true.
Proof. apply Str_eqb_eq. reflexivity. Qed.

Lemma existsb_eqb_elem_of s (l : list (list ascii)) :
  existsb (Str.eqb s) l = true <-> s ∈ l.
Proof.
  rewrite existsb_exists, list_elem_of_In. split.
  - intros (x & Hin & E). apply Str_eqb_eq in E. subst. exact Hin.
  - intros Hin. exists s. split; [exact Hin|apply Str_eqb_refl].
Qed.

Lemma is_identifier_key n :
  is_identifier n = true <-> to_key n ∈ identifier_fields.
Proof.
  destruct n as [s|b].
  - exact (existsb_eqb_elem_of s identifier_fields).
  - simpl. split; [discriminate|]. unfold identifier_fields. intros H.
    repeat (apply elem_of_cons in H as [H|H];
            [destruct b; discriminate H|]).
    inversion H.
Qed.

Lemma add_condition_normalised flt cond :
  (∀ key p, flt !! key = Some p -> normalised true key p) ->
  ∀ key p, add_condition FIELD_ALIASES flt cond !! key = Some p ->
           normalised true key p.
Proof.
  intros IH key p. unfold add_condition.
  destruct (map unquote (Split.on_char "=" cond)) as [|k [|v rest]]; auto.
  destruct (nonempty k) eqn:Hk; simpl; auto.
  destruct (nonempty v) eqn:Hv; simpl; auto.
  fold resolve.
  destruct (is_identifier (resolve k)) eqn:Hid;
    rewrite lookup_insert; case_decide as E; auto;
    intros [= <-]; subst key; exists k, v; repeat split; auto.
  - left. split; [apply is_identifier_key, Hid|reflexivity].
  - right. split; [|reflexivity].
    rewrite <- is_identifier_key, Hid. discriminate.
Qed.

Lemma add_token_normalised flt token :
  (∀ key p, flt !! key = Some p -> normalised false key p) ->
  ∀ key p, add_token FIELD_ALIASES flt token !! key = Some p ->
           normalised false key p.
Proof.
  intros IH key p. unfold add_token.
  destruct (key_value token) as [k [v|]]; auto.
  destruct (nonempty k) eqn:Hk; simpl; auto.
  destruct (nonempty v) eqn:Hv; simpl; auto.
  fold resolve.
  destruct (is_identifier (resolve k)) eqn:Hid;
    rewrite lookup_insert; case_decide as E; auto;
    intros [= <-]; subst key; exists k, v; repeat split; auto.
  - left. split; [apply is_identifier_key, Hid|reflexivity].
  - right. split; [|reflexivity].
    rewrite <- is_identifier_key, Hid. discriminate.
Qed.

Lemma fold_left_normalised {A} (step : gmap (list ascii) predicate -> A ->
                                       gmap (list ascii) predicate)
    (P : list ascii -> predicate -> Prop) (l : list A) flt :
  (∀ flt a, (∀ key p, flt !! key = Some p -> P key p) ->
            ∀ key p, step flt a !! key = Some p -> P key p) ->
  (∀ key p, flt !! key = Some p -> P key p) ->
  ∀ key p, fold_left step l flt !! key = Some p -> P key p.
Proof.
  intros Hstep. revert flt. induction l as [|a l IH]; intros flt H; simpl.
  - exact H.
  - apply IH, Hstep, H.
Qed.

(** X15. In both filter paths a parsed pair of a key and a non-empty raw
    value is stored under its canonical key as follows, and every entry of
    the resulting filter mapping is of that form: under one of the keys
    DeviceId, OrganizationId, UserId, TagId it is the literal raw value
    itself; under any other key it is a pattern with the option [i], whose
    text is the raw value as typed, between [^] and [$] in the
    global-filter path of show-all-logs and bare in the structured-list
    path. *)
Theorem filter_predicates_by_key (query key : list ascii) (p : predicate) :
  (∀ flt cond k v rest,
     map unquote (Split.on_char "=" cond) = k :: v :: rest ->
     nonempty k = true -> nonempty v = true ->
     add_condition FIELD_ALIASES flt cond !! to_key (resolve k) =
       Some (if is_identifier (resolve k) then Exact v
             else Regex (Str.of_string "^" ++ v ++ Str.of_string "$") "i")) ∧
  (∀ flt token k v,
     key_value token = (k, Some v) ->
     nonempty k = true -> nonempty v = true ->
     add_token FIELD_ALIASES flt token !! to_key (resolve k) =
       Some (if is_identifier (resolve k) then Exact v else Regex v "i")) ∧
  (extractFiltersOnly query !! key = Some p -> normalised true key p) ∧
  (filters (extractFieldsAndFilters query) !! key = Some p ->
     normalised false key p).
Proof.
  split_and!.
  - intros flt cond k v rest E Hk Hv. unfold add_condition.
    rewrite E, Hk, Hv. cbn [andb]. fold resolve.
    destruct (is_identifier (resolve k)); apply lookup_insert_eq.
  - intros flt token k v E Hk Hv. unfold add_token.
    rewrite E, Hk, Hv. cbn [andb]. fold resolve.
    destruct (is_identifier (resolve k)); apply lookup_insert_eq.
  - unfold extractFiltersOnly, extractFiltersOnly_in.
    destruct (Re.filter_clause query) as [clause|].
    + apply fold_left_normalised.
      * apply add_condition_normalised.
      * intros ? ?. rewrite lookup_empty. discriminate.
    + rewrite lookup_empty. discriminate.
  - unfold extractFieldsAndFilters, extractFieldsAndFilters_in.
    destruct (Re.fields_and_filter query) as [[f [clause|]]|]; simpl;
      try (rewrite lookup_empty; discriminate).
    destruct (nonempty clause); [|rewrite lookup_empty; discriminate].
    apply fold_left_normalised.
    + apply add_token_normalised.
    + intros ? ?. rewrite lookup_empty. discriminate.
Qed.

Lemma filter_predicates_by_key_witness :
  extractFiltersOnly "show logs for deviceid=ABC123 and ward=icu" =
    {[ Str.of_string "DeviceId" := Exact (Str.of_string "ABC123");
       Str.of_string "LogData.Ward" :=
         Regex (Str.of_string "^icu$") (Str.of_string "i") ]} ∧
  normalised true "LogData.Ward"
    (Regex (Str.of_string "^icu$") (Str.of_string "i")) ∧
  filters (extractFieldsAndFilters "list model where ward=icu, deviceid=A1") =
    {[ Str.of_string "DeviceId" := Exact (Str.of_string "A1");
       Str.of_string "LogData.Ward" :=
         Regex (Str.of_string "icu") (Str.of_string "i") ]} ∧
  normalised false "DeviceId" (Exact (Str.of_string "A1")).
Proof.
  split_and!.
  - vm_compute. reflexivity.
  - apply (proj1 (proj2 (proj2 (filter_predicates_by_key
             (Str.of_string "show logs for deviceid=ABC123 and ward=icu")
             (Str.of_string "LogData.Ward")
             (Regex (Str.of_string "^icu$") (Str.of_string "i")))))).
    vm_compute. reflexivity.
  - vm_compute. reflexivity.
  - apply (proj2 (proj2 (proj2 (filter_predicates_by_key
             (Str.of_string "list model where ward=icu, deviceid=A1")
             (Str.of_string "DeviceId") (Exact (Str.of_string "A1")))))).
    vm_compute. reflexivity.
Defined.

(** C2. The raw value goes into the pattern as typed, without escaping,
    so the pattern is not the exact-string or the substring match of the
    value whenever the value holds a character the pattern language reads:
    in the global-filter path "ward=icu|er" gives the pattern [^icu|er$],
    an alternation of "icu" at the start and "er" at the end, and in the
    structured-list path "ward=^icu$" gives the pattern [^icu$], anchored
    at both ends. *)
Theorem filter_value_is_not_escaped :
  extractFiltersOnly "show logs for ward=icu|er" =
    {[ Str.of_string "LogData.Ward" :=
         Regex (Str.of_string "^icu|er$") (Str.of_string "i") ]} ∧
  filters (extractFieldsAndFilters "list model where ward=^icu$") =
    {[ Str.of_string "LogData.Ward" :=
         Regex (Str.of_string "^icu$") (Str.of_string "i") ]}.
Proof. split; vm_compute; reflexivity. Qed.

(** ** The structured query extractor *)

Lemma capture_sound {R} (P : list ascii -> Prop)
    (m : @Re.cont R -> @Re.cont R) k prev s r :
  (∀ k' prev' s' r', m k' prev' s' = Some r' ->
     ∃ x rest, s' = x ++ rest ∧ P x ∧ k' (after prev' x) rest = Some r') ->
  Re.capture m k prev s = Some r ->
  ∃ x rest, s = x ++ rest ∧ P x ∧ k x (after prev x) rest = Some r.
Proof.
  intros Hm H. unfold Re.capture in H.
  apply Hm in H as (x & rest & -> & HP & H).
  exists x, rest. repeat split; auto.
  rewrite length_app, Nat.add_sub, take_app_length in H. exact H.
Qed.

Lemma plus_captured {R} p (k : list ascii -> @Re.cont R) prev s r :
  Re.capture (Re.plus p) k prev s = Some r ->
  ∃ x rest, s = x ++ rest ∧ (nonempty x && forallb p x)%bool = true ∧
            k x (after prev x) rest = Some r.
Proof.
  apply capture_sound. intros k' prev' s' r' H.
  apply plus_sound in H as (x & rest & -> & Hne & Hx & H).
  exists x, rest. rewrite Hne, Hx. auto.
Qed.

Lemma plus_lazy_captured {R} p (k : list ascii -> @Re.cont R) prev s r :
  Re.capture (Re.plus_lazy p) k prev s = Some r ->
  ∃ x rest, s = x ++ rest ∧ (nonempty x && forallb p x)%bool = true ∧
            k x (after prev x) rest = Some r.
Proof.
  apply capture_sound. intros k' prev' s' r' H.
  apply plus_lazy_sound in H as (x & rest & -> & Hne & Hx & H).
  exists x, rest. rewrite Hne, Hx. auto.
Qed.

Lemma clause_word_sound {R} (k : @Re.cont R) prev s r :
  Re.clause_word k prev s = Some r ->
  ∃ w rest, s = w ++ rest ∧ Grammar.is_clause_word w = true ∧
            k (after prev w) rest = Some r.
Proof.
  unfold Re.clause_word, Grammar.is_clause_word. intros H.
  apply orelse_Some in H as [H|H];
    [|apply orelse_Some in H as [H|H];
      [|apply orelse_Some in H as [H|H]]];
    apply lit_sound in H as (x & rest & -> & Hx & Hk);
    exists x, rest; rewrite Hx, ?orb_true_r; auto.
Qed.

Lemma fields_and_filter_parsed query rawFields rawFilter :
  Re.fields_and_filter query = Some (rawFields, rawFilter) ->
  Grammar.parsed query rawFields rawFilter.
Proof.
  unfold Re.fields_and_filter, Grammar.parsed. intros H.
  apply verb_sound in H as (v & s1 & -> & Hv & H).
  apply plus_sound in H as (gap & s2 & -> & Hne & Hsp & H).
  apply plus_lazy_captured in H as (f & rest & -> & Hf & H).
  assert (Hgap : Shape.spaces gap = true)
    by (unfold Shape.spaces; rewrite Hne, Hsp; reflexivity).
  apply orelse_Some in H as [H|H].
  - apply plus_sound in H as (gap1 & s3 & -> & Hne1 & Hsp1 & H).
    apply clause_word_sound in H as (w & s4 & -> & Hw & H).
    apply plus_sound in H as (gap2 & s5 & -> & Hne2 & Hsp2 & H).
    apply plus_captured in H as (clause & s6 & -> & Hc & H).
    destruct s6; [|discriminate]. injection H as <- <-.
    rewrite app_nil_r.
    exists v, gap, (gap1 ++ w ++ gap2 ++ clause). split_and!; auto.
    exists gap1, w, gap2. unfold Shape.spaces.
    rewrite Hne1, Hsp1, Hne2, Hsp2. auto.
  - destruct rest; [|discriminate]. injection H as <- <-.
    exists v, gap, []. auto.
Qed.

Lemma and_or_comma_unfold c r :
  Split.and_or_comma (c :: r) =
    if Ascii.eqb c "," then [] :: Split.and_or_comma r
    else match Str.strip_prefix "and" (c :: r) with
         | Some r' => [] :: Split.and_or_comma r'
         | None => Split.push_char c (Split.and_or_comma r)
         end.
Proof.
  cbn [Split.and_or_comma]. destruct (Ascii.eqb c ","); [reflexivity|].
  destruct r as [|n [|d r']];
    cbn [Str.strip_prefix Str.of_string list_ascii_of_string];
    rewrite ?(Ascii.eqb_sym "a" c), ?(Ascii.eqb_sym "n" n),
            ?(Ascii.eqb_sym "d" d);
    destruct (Ascii.eqb c "a"); try reflexivity;
    destruct (Ascii.eqb n "n"); try reflexivity;
    destruct (Ascii.eqb d "d"); reflexivity.
Qed.

Lemma strip_prefix_app w s r :
  Str.strip_prefix w s = Some r -> s = w ++ r.
Proof.
  revert s. induction w as [|x w IH]; intros s H.
  - simpl in H. injection H as <-. reflexivity.
  - destruct s as [|y s]; cbn [Str.strip_prefix] in H; [discriminate|].
    destruct (Ascii.eqb x y) eqn:E; [|discriminate].
    apply Ascii.eqb_eq in E. subst. simpl. f_equal. apply IH, H.
Qed.

Lemma strip_prefix_extend w s t :
  is_Some (Str.strip_prefix w s) -> is_Some (Str.strip_prefix w (s ++ t)).
Proof.
  revert s. induction w as [|x w IH]; intros s [r H].
  - simpl. eauto.
  - destruct s as [|y s]; cbn [Str.strip_prefix app] in *; [discriminate|].
    destruct (Ascii.eqb x y); [|discriminate]. apply IH. eauto.
Qed.

Lemma interleave_head p ps seps :
  ∃ t, Pieces.interleave (p :: ps) seps = p ++ t.
Proof.
  destruct seps as [|sep seps]; simpl.
  - exists []. rewrite app_nil_r. reflexivity.
  - eauto.
Qed.

Lemma includes_cons w c p :
  Pieces.includes w (c :: p) =
    match Str.strip_prefix w (c :: p) with
    | Some _ => true
    | None => Pieces.includes w p
    end.
Proof. reflexivity. Qed.

Lemma cut_nil : Pieces.cut [] (Split.and_or_comma []).
Proof.
  exists []. split_and!; auto. constructor; [split; reflexivity|constructor].
Qed.

Lemma and_or_comma_cut_bounded n s :
  length s <= n -> Pieces.cut s (Split.and_or_comma s).
Proof.
  revert s. induction n as [|n IH]; intros [|c r] Hlen; simpl in Hlen;
    try lia; try apply cut_nil.
  rewrite and_or_comma_unfold.
  destruct (Ascii.eqb c ",") eqn:Hc.
  - apply Ascii.eqb_eq in Hc. subst c.
    destruct (IH r ltac:(lia)) as (seps & Hl & Hs & Hi & Hf).
    exists (Str.of_string "," :: seps). repeat split.
    + simpl. rewrite Hl. reflexivity.
    + constructor; [left; reflexivity|exact Hs].
    + simpl in *. destruct (Split.and_or_comma r); [discriminate|].
      rewrite Hi. reflexivity.
    + constructor; [split; reflexivity|exact Hf].
  - destruct (Str.strip_prefix "and" (c :: r)) as [r'|] eqn:Hand.
    + pose proof (strip_prefix_app _ _ _ Hand) as E.
      assert (Hlen' : length r' <= n).
      { apply (f_equal (@length ascii)) in E. simpl in E. lia. }
      destruct (IH r' Hlen') as (seps & Hl & Hs & Hi & Hf).
      exists (Str.of_string "and" :: seps). repeat split.
      * simpl. rewrite Hl. reflexivity.
      * constructor; [right; reflexivity|exact Hs].
      * rewrite E. destruct (Split.and_or_comma r'); [discriminate|].
        simpl in *. rewrite Hi. reflexivity.
      * constructor; [split; reflexivity|exact Hf].
    + destruct (IH r ltac:(lia)) as (seps & Hl & Hs & Hi & Hf).
      destruct (Split.and_or_comma r) as [|p ps]; [discriminate|].
      exists seps. simpl. repeat split; auto.
      * destruct seps; simpl in *; rewrite <- Hi; reflexivity.
      * inversion Hf as [|? ? [Hp1 Hp2] Hps]; subst.
        constructor; [|exact Hps]. split.
        -- rewrite includes_cons.
           cbn [Str.strip_prefix Str.of_string list_ascii_of_string].
           rewrite (Ascii.eqb_sym "," c), Hc. exact Hp1.
        -- rewrite includes_cons.
           destruct (Str.strip_prefix "and" (c :: p)) eqn:Hcp; [|exact Hp2].
           destruct (interleave_head p ps seps) as [t Ht].
           rewrite Ht in Hand.
           destruct (strip_prefix_extend "and" (c :: p) t) as [? Hx]; eauto.
           change ((c :: p) ++ t) with (c :: p ++ t) in Hx.
           rewrite Hx in Hand. discriminate.
Qed.

Lemma and_or_comma_cut s : Pieces.cut s (Split.and_or_comma s).
Proof. apply (and_or_comma_cut_bounded (length s)). lia. Qed.

Lemma assoc_In {A} k (l : list (list ascii * A)) v :
  assoc k l = Some v -> In (k, v) l.
Proof.
  induction l as [|[k' v'] l IH]; simpl; [discriminate|].
  destruct (Str.eqb k k') eqn:E.
  - apply Str_eqb_eq in E. intros [= ->]. subst. auto.
  - auto.
Qed.

Lemma FIELD_ALIASES_nonempty k canonical :
  assoc k FIELD_ALIASES = Some canonical -> nonempty canonical = true.
Proof.
  intros H. apply assoc_In in H.
  assert (F : forallb (fun kv : list ascii * list ascii => nonempty kv.2)
                FIELD_ALIASES = true) by reflexivity.
  rewrite forallb_forall in F. exact (F _ H).
Qed.

Lemma resolve_table_resolved token : table_resolved token (resolve token).
Proof.
  unfold table_resolved, resolve, resolve_in, table_get.
  destruct (assoc (Str.toLowerCase token) FIELD_ALIASES) as [c|] eqn:E.
  - simpl. rewrite (FIELD_ALIASES_nonempty _ _ E). reflexivity.
  - intros ->. reflexivity.
Qed.

Lemma fold_add_field table l acc :
  fold_left (add_field table) l acc =
  acc ++ map (resolve_in table) (List.filter nonempty (map clean l)).
Proof.
  revert acc. induction l as [|f l IH]; intros acc; simpl.
  - rewrite app_nil_r. reflexivity.
  - rewrite IH. unfold add_field.
    destruct (nonempty (clean f)); [|reflexivity].
    simpl. rewrite <- app_assoc. reflexivity.
Qed.

(** X18. What the extractor does with the field segment.  Whenever the
    grammar matches with the field segment [rawFields], the extractor cuts
    the segment at every comma and at every occurrence of the lower-case letters "and" (inside a token as
    well), cleans each piece to its characters of [[a-zA-Z0-9_.]], drops
    the pieces that become empty and looks the others up in the alias
    table; when the grammar does not match there is no field and no
    filter; and the input "list deviceid and model" yields the fields
    DeviceId, LogData.Model and no filter. *)
Theorem fields_cut_at_commas_and_letters :
  (∀ query rawFields rawFilter,
     Re.fields_and_filter query = Some (rawFields, rawFilter) ->
     Grammar.parsed query rawFields rawFilter ∧
     Pieces.cut rawFields (Split.and_or_comma rawFields) ∧
     Forall2 table_resolved
       (List.filter nonempty (map clean (Split.and_or_comma rawFields)))
       (fields (extractFieldsAndFilters query))) ∧
  (∀ query,
     Re.fields_and_filter query = None ->
     extractFieldsAndFilters query = {| fields := []; filters := ∅ |}) ∧
  extractFieldsAndFilters "list deviceid and model" =
    {| fields := [Named (Str.of_string "DeviceId");
                  Named (Str.of_string "LogData.Model")];
       filters := ∅ |}.
Proof.
  split; [|split; [|vm_compute; reflexivity]];
    [|intros query H;
      unfold extractFieldsAndFilters, extractFieldsAndFilters_in;
      rewrite H; reflexivity].
  intros query rawFields rawFilter H. split_and!.
  - apply fields_and_filter_parsed, H.
  - apply and_or_comma_cut.
  - unfold extractFieldsAndFilters, extractFieldsAndFilters_in.
    rewrite H. cbn [fields]. rewrite fold_add_field. simpl.
    induction (List.filter nonempty (map clean (Split.and_or_comma rawFields)))
      as [|t l IH]; constructor; auto.
    apply resolve_table_resolved.
Qed.

(** The extractor at "list brand, model": one verb, the segment cut inside
    the token "brand". *)
Lemma fields_cut_at_commas_and_letters_witness :
  Re.fields_and_filter "list brand, model" =
    Some (Str.of_string "brand, model", None) ∧
  Split.and_or_comma "brand, model" =
    [Str.of_string "br"; []; Str.of_string " model"] ∧
  Forall2 table_resolved
    (List.filter nonempty (map clean (Split.and_or_comma "brand, model")))
    (fields (extractFieldsAndFilters "list brand, model")).
Proof.
  split_and!; [vm_compute; reflexivity..|].
  apply (proj1 fields_cut_at_commas_and_letters
           (Str.of_string "list brand, model")
           (Str.of_string "brand, model") None).
  vm_compute. reflexivity.
Defined.

(** C4. The segment is cut at the letters "and" inside a token as well:
    at "list brand" the grammar matches with the segment "brand", the
    extractor yields the one field "br", and the field list as the
    specification words it is "brand" (and DeviceId, LogData.Model for
    "deviceid and model"). *)
Lemma list_brand_is_cut_inside_the_token :
  Re.fields_and_filter "list brand" = Some (Str.of_string "brand", None) ∧
  fields (extractFieldsAndFilters "list brand") =
    [Named (Str.of_string "br")] ∧
  map Named (Claimed.field_list "brand") = [Named (Str.of_string "brand")] ∧
  map Named (Claimed.field_list "deviceid and model") =
    [Named (Str.of_string "DeviceId"); Named (Str.of_string "LogData.Model")] ∧
  fields (extractFieldsAndFilters "list brand") ≠
    map Named (Claimed.field_list "brand").
Proof. vm_compute. split_and!; auto. discriminate. Qed.

(** ** Turns *)

Lemma io_bind_events {A B} (m : io A) (f : A -> io B) :
  (io_bind m f).1 =
  m.1 ++ match m.2 with
         | Ok a => (f a).1
         | Throw _ => []
         end.
Proof.
  destruct m as [t [a|e]]; simpl.
  - destruct (f a). reflexivity.
  - rewrite app_nil_r. reflexivity.
Qed.

Lemma io_bind_outcome {A B} (m : io A) (f : A -> io B) :
  (io_bind m f).2 =
  match m.2 with
  | Ok a => (f a).2
  | Throw e => Throw e
  end.
Proof. destruct m as [t [a|e]]; simpl; [destruct (f a)|]; reflexivity. Qed.

Lemma catch_events (m : io unit) :
  catch m = m.1 ++ match m.2 with
                   | Ok _ => []
                   | Throw e => [Console (ErrorMessage e)]
                   end.
Proof. destruct m as [t [a|e]]; simpl; rewrite ?app_nil_r; reflexivity. Qed.

Section Branches.
Variable host : value -> list ascii -> value.

Lemma dispatch_show w question :
  isShowLogsQuery question = true ->
  dispatch host w question = show_logs_branch w question.
Proof. unfold dispatch. intros ->. reflexivity. Qed.

(** The branch [dispatch] takes is the one of the intent. *)
Lemma dispatch_by_intent w question :
  dispatch host w question =
  match classify question with
  | ShowAllLogs => show_logs_branch w question
  | ListUniqueField =>
      match Re.list_unique question with
      | Some group1 => list_unique_branch w group1
      | None => fallback_branch host w question
      end
  | StructuredList => structured_branch host w question
  | SemanticFallback => fallback_branch host w question
  end.
Proof.
  unfold classify, dispatch.
  destruct (isShowLogsQuery question); [reflexivity|].
  destruct (Re.list_unique question) as [x|].
  - rewrite bool_decide_eq_true_2 by eauto. reflexivity.
  - rewrite (bool_decide_eq_false_2 (is_Some (@None (list ascii))))
      by apply is_Some_None.
    destruct (bool_decide _); reflexivity.
Qed.

Lemma dispatch_fallback w question :
  classify question = SemanticFallback ->
  dispatch host w question = fallback_branch host w question.
Proof. intros H. rewrite dispatch_by_intent, H. reflexivity. Qed.
End Branches.

Lemma is_word_ci_length w x :
  Shape.is_word_ci w x = true -> length x = length w.
Proof.
  revert x. induction w as [|p w IH]; intros [|c x] H; simpl in H;
    try discriminate; [reflexivity|].
  apply andb_true_iff in H as [_ H]. simpl. f_equal. apply IH, H.
Qed.

(** A show-logs query is no exit word. *)
Lemma show_logs_not_exit question :
  isShowLogsQuery question = true -> is_exit question = false.
Proof.
  unfold isShowLogsQuery, is_exit. intros H.
  apply bool_decide_eq_true_1 in H as [[] H]. unfold Re.show_logs in H.
  apply lit_sound in H as (show & s1 & E & Hshow & H).
  apply plus_sound in H as (gap & s2 & -> & Hne & _ & _).
  apply is_word_ci_length in Hshow.
  assert (L : 5 <= length (Str.toLowerCase (Str.trim question))).
  { unfold Str.toLowerCase. rewrite length_map, E, !length_app, Hshow.
    destruct gap; [discriminate|]. simpl. lia. }
  apply orb_false_iff. split; apply not_true_is_false; intros Q;
    apply Str_eqb_eq in Q; rewrite Q in L; simpl in L; lia.
Qed.

(** ** The embedding request *)

(** C3, at the question "What errors occurred yesterday?" when the
    embedding service answers a body without the [embedding] field: the
    turn of [chatbot.js] goes on to the similarity search with an undefined
    query vector, assembles the context and calls the generator, and
    reports no error; [generateEmbedding] of [ingest-logs.js] throws on the
    same answer. *)
Theorem missing_embedding_goes_unchecked
    (host : value -> list ascii -> value) :
  let question := Str.of_string "What errors occurred yesterday?" in
  let w := Sample.world_with [] (VObject []) in
  classify question = SemanticFallback ∧
  turn host w question =
    Some [ CallEmbeddings EMBEDDING_MODEL question;
           Connect;
           CallAggregate [vectorSearchStage VUndefined None];
           Close;
           CallGenerate CHAT_MODEL (prompt_of [] question);
           Console (Answer (Str.of_string "No logs.")) ] ∧
  ingest_generateEmbedding host w question =
    ([CallEmbeddings EMBEDDING_MODEL question],
     Throw (Str.of_string "No embedding returned")).
Proof. split_and!; vm_compute; reflexivity. Qed.

(** ** List unique *)

(** C5, at the input "list unique constructor": the name is no key of the
    alias table, so the specification passes it through unchanged; the
    lookup [FIELD_ALIASES["constructor"]] finds the member the table
    inherits, and the distinct-value request is made for that member. *)
Theorem list_unique_constructor_is_inherited
    (host : value -> list ascii -> value) :
  Re.list_unique "list unique constructor" =
    Some (Str.of_string "constructor") ∧
  Claimed.alias (clean "constructor") = Str.of_string "constructor" ∧
  resolve (clean "constructor") = Inherited ObjectConstructor ∧
  turn host (Sample.world_with [] VNull) "list unique constructor" =
    Some [ Connect;
           CallDistinct (Inherited ObjectConstructor);
           Close;
           Console (NoUniqueValues (Inherited ObjectConstructor)) ].
Proof. split_and!; vm_compute; reflexivity. Qed.

(** X1. For every input "list unique <x>" the distinct-value request is
    made for the cleaned <x> as the alias table resolves it, whenever its
    lower-case form names no inherited member. *)
Lemma list_unique_field_resolved
    (host : value -> list ascii -> value) (w : world)
    (question x : list ascii) :
  Re.list_unique question = Some x ->
  classify question = ListUniqueField ->
  storage_connect w = Ok tt ->
  ∃ field rest,
    (dispatch host w question).1 = Connect :: CallDistinct field :: rest ∧
    table_resolved (clean x) field.
Proof.
  intros Hx Hc Hw. rewrite dispatch_by_intent, Hc, Hx.
  unfold list_unique_branch. rewrite io_bind_events.
  unfold call at 1. rewrite Hw. cbn [fst snd app]. rewrite io_bind_events.
  eexists _, _. split; [reflexivity|apply resolve_table_resolved].
Qed.

Lemma list_unique_field_resolved_witness :
  Re.list_unique "list unique ward" = Some (Str.of_string "ward") ∧
  classify "list unique ward" = ListUniqueField ∧
  ∃ field rest,
    (dispatch Sample.host (Sample.world_with [] VNull)
       "list unique ward").1 = Connect :: CallDistinct field :: rest ∧
    field = Named (Str.of_string "LogData.Ward").
Proof.
  split; [vm_compute; reflexivity|]. split; [vm_compute; reflexivity|].
  apply (list_unique_field_resolved Sample.host (Sample.world_with [] VNull)
           (Str.of_string "list unique ward") (Str.of_string "ward"));
    [vm_compute; reflexivity..|reflexivity].
Defined.

(** ** Context assembly and row flattening *)

Section Totality.
Variable host : value -> list ascii -> value.

Lemma truthy_not_nullish v : truthy v = true -> nullish v = false.
Proof. destruct v; simpl; congruence. Qed.

Lemma nullish_not_truthy v : nullish v = true -> truthy v = false.
Proof. destruct v; simpl; congruence. Qed.

Lemma get_defined v p :
  nullish v = false -> restricted_key p = false -> ∃ r, get host v p = Ok r.
Proof.
  intros N R. destruct v; simpl; try discriminate; eauto.
  rewrite R, andb_false_r. eauto.
Qed.

Lemma get_optional_total v p :
  restricted_key p = false -> ∃ r, get_optional host v p = Ok r.
Proof.
  intros R. unfold get_optional.
  destruct (nullish v) eqn:E; eauto using get_defined.
Qed.

Lemma get_optional_object doc p :
  get_optional host (VObject doc) p = Ok (member doc p).
Proof. reflexivity. Qed.

Lemma format_doc_total i doc : ∃ s, format_doc host i doc = Ok s.
Proof.
  unfold format_doc. rewrite get_optional_object.
  cbn [get mbind outcome_bind].
  destruct (get_optional_total (member doc "LogData") "State" eq_refl)
    as [a ->].
  destruct (get_optional_total (member doc "LogData") "Model" eq_refl)
    as [b ->].
  destruct (get_optional_total (member doc "LogData") "Ward" eq_refl)
    as [c ->].
  cbn [mbind outcome_bind]. eauto.
Qed.

Lemma format_docs_total i docs : ∃ blocks, format_docs host i docs = Ok blocks.
Proof.
  revert i. induction docs as [|d docs IH]; intros i; simpl; eauto.
  destruct (format_doc_total i d) as [b ->].
  destruct (IH (S i)) as [bs ->]. simpl. eauto.
Qed.

Lemma walk_total val parts :
  Path.unrestricted parts = true -> ∃ r, walk host val parts = Ok r.
Proof.
  revert val. induction parts as [|p parts IH]; intros val; simpl; eauto.
  intros U. apply andb_true_iff in U as [Up U].
  apply negb_true_iff in Up.
  destruct (truthy val) eqn:T; [|apply IH, U].
  destruct (get_defined val p (truthy_not_nullish _ T) Up) as [next ->].
  simpl. apply IH, U.
Qed.

Lemma walk_record res parts :
  Path.unrestricted (tail parts) = true ->
  ∃ r, walk host (VObject res) parts = Ok r.
Proof.
  destruct parts as [|p parts]; simpl; eauto.
  intros U. apply walk_total, U.
Qed.

Lemma walk_nullish val parts :
  nullish val = true -> walk host val parts = Ok val.
Proof.
  intros N. induction parts as [|p parts IH]; simpl; [reflexivity|].
  rewrite (nullish_not_truthy _ N). exact IH.
Qed.

Lemma walk_absent val parts :
  absent val parts -> ∃ r, walk host val parts = Ok r ∧ nullish r = true.
Proof.
  induction 1 as [doc p rest N|doc p rest _ IH]; simpl.
  - exists (member doc p). split; [apply walk_nullish, N|exact N].
  - exact IH.
Qed.

Lemma cell_total res path :
  Path.safe path = true -> ∃ v, cell host res (Named path) = Ok v.
Proof.
  intros S. unfold cell. destruct (existsb _ path).
  - destruct (walk_record res (Split.on_char "." path) S) as [v ->].
    simpl. eauto.
  - simpl. eauto.
Qed.

Lemma on_char_without sep s :
  existsb (Ascii.eqb sep) s = false -> Split.on_char sep s = [s].
Proof.
  induction s as [|c s IH]; simpl; [reflexivity|].
  intros H. apply orb_false_iff in H as [Hc Hs].
  rewrite Ascii.eqb_sym, Hc, (IH Hs). reflexivity.
Qed.

Lemma cell_absent res path :
  absent (VObject res) (Split.on_char "." path) ->
  cell host res (Named path) = Ok (VString []).
Proof.
  intros A. unfold cell. destruct (existsb _ path) eqn:E.
  - destruct (walk_absent _ _ A) as (r & -> & N). simpl.
    unfold or_empty. rewrite N. reflexivity.
  - rewrite (on_char_without _ _ E) in A. simpl.
    inversion A as [? ? ? N|? ? ? B]; subst.
    + unfold or_empty. rewrite N. reflexivity.
    + inversion B.
Qed.

Lemma traverse_total {A B} (f : A -> outcome B) (l : list A) :
  (∀ a, ∃ b, f a = Ok b) ->
  ∃ bs, traverse f l = Ok bs ∧ length bs = length l.
Proof.
  intros Hf. induction l as [|a l (bs & IH & L)]; simpl; eauto.
  destruct (Hf a) as [b ->]. rewrite IH. simpl.
  exists (b :: bs). simpl. auto.
Qed.

Lemma traverse_length {A B} (f : A -> outcome B) (l : list A) bs :
  traverse f l = Ok bs -> length bs = length l.
Proof.
  revert bs. induction l as [|a l IH]; simpl; intros bs H.
  - injection H as <-. reflexivity.
  - destruct (f a) as [b|]; [|discriminate]. simpl in H.
    destruct (traverse f l) as [bs'|]; [|discriminate]. simpl in H.
    injection H as <-. simpl. f_equal. apply IH. reflexivity.
Qed.

Lemma traverse_Forall {A B} (f : A -> outcome B) (P : B -> Prop)
    (l : list A) bs :
  (∀ a b, f a = Ok b -> P b) ->
  traverse f l = Ok bs -> Forall P bs.
Proof.
  intros Hf. revert bs. induction l as [|a l IH]; simpl; intros bs H.
  - injection H as <-. constructor.
  - destruct (f a) as [b|] eqn:E; [|discriminate]. simpl in H.
    destruct (traverse f l) as [bs'|]; [|discriminate]. simpl in H.
    injection H as <-. constructor; eauto.
Qed.
End Totality.

Lemma flatten_total host results paths :
  Forall (fun p => Path.safe p = true) paths ->
  ∃ rows, flatten host results (map Named paths) = Ok rows ∧
          length rows = length results ∧
          Forall (fun row => length row = length paths) rows.
Proof.
  intros S. unfold flatten.
  assert (Hrow : ∀ res : document,
    ∃ row, traverse (cell host res) (map Named paths) = Ok row).
  { intros res. induction S as [|p ps Hp _ [row IH]];
      cbn [traverse map mbind outcome_bind]; eauto.
    destruct (cell_total host res p Hp) as [v ->]. rewrite IH.
    cbn [mbind outcome_bind]. eauto. }
  destruct (traverse_total
              (fun res => traverse (cell host res) (map Named paths))
              results Hrow) as (rows & H & L).
  exists rows. split_and!; auto.
  eapply traverse_Forall; [|exact H].
  intros res row Hr. apply traverse_length in Hr.
  rewrite length_map in Hr. exact Hr.
Qed.

(** C6. The row flattening is not total.  A requested field that is no
    string breaks it: for "list constructor" the alias lookup gives the
    function [Object] (the defect of C5) and [f.includes] is no function.
    A path through an inherited function breaks it as well: for "list
    constructor.caller" the walk reads [caller] on [Object], which throws.
    Either turn ends with the error after the find, for any record that
    was retrieved. *)
Theorem inherited_members_break_the_rows :
  (∀ host res,
     cell host res (Inherited ObjectConstructor)
     = Throw (Str.of_string "f.includes is not a function")) ∧
  (∀ host res,
     assoc "constructor" res = None ->
     cell host res (Named (Str.of_string "constructor.caller"))
     = Throw restricted_read) ∧
  turn Sample.host (Sample.world_with [Sample.bare] VNull)
    "list constructor"
  = Some [ Connect;
           Console (MongoFilters ∅);
           Console (ProjectingFields [Inherited ObjectConstructor]);
           CallFind ∅ (Some (projection_of [Inherited ObjectConstructor])) 100;
           Close;
           Console (ErrorMessage
                      (Str.of_string "f.includes is not a function")) ] ∧
  turn Sample.host (Sample.world_with [Sample.bare] VNull)
    "list constructor.caller"
  = Some [ Connect;
           Console (MongoFilters ∅);
           Console (ProjectingFields
                      [Named (Str.of_string "constructor.caller")]);
           CallFind ∅
             (Some (projection_of
                      [Named (Str.of_string "constructor.caller")])) 100;
           Close;
           Console (ErrorMessage restricted_read) ].
Proof.
  split_and!.
  - reflexivity.
  - intros host res H. unfold cell.
    change (existsb (Ascii.eqb ".") (Str.of_string "constructor.caller"))
      with true.
    change (Split.on_char "." (Str.of_string "constructor.caller"))
      with [Str.of_string "constructor"; Str.of_string "caller"].
    cbn [walk truthy get mbind outcome_bind]. unfold member. rewrite H.
    reflexivity.
  - vm_compute. reflexivity.
  - vm_compute. reflexivity.
Qed.

(** X16. For requested fields that are strings whose walk reads neither
    [caller] nor [arguments] below the record, the row flattening returns
    for every list of records: one row per record, one cell per field;
    and a field whose nested object is absent in the record gives the
    empty string. *)
Theorem rows_of_safe_paths
    (host : value -> list ascii -> value)
    (results : list document) (paths : list (list ascii)) :
  Forall (fun p => Path.safe p = true) paths ->
  (∃ rows, flatten host results (map Named paths) = Ok rows ∧
           length rows = length results ∧
           Forall (fun row => length row = length paths) rows) ∧
  (∀ res path,
     absent (VObject res) (Split.on_char "." path) ->
     cell host res (Named path) = Ok (VString [])).
Proof.
  intros S. split.
  - apply flatten_total, S.
  - intros res path. apply cell_absent.
Qed.

Example cell_of_bare_record :
  cell Sample.host Sample.bare (Named (Str.of_string "LogData.TagDetail.Key"))
    = Ok (VString []) ∧
  formatContext Sample.host [Sample.bare] =
    Ok (Str.of_string "# Log 1" ++ nl
        ++ Str.of_string "DeviceId: XYZ9" ++ nl
        ++ Str.of_string "Summary: undefined" ++ nl
        ++ Str.of_string "State: undefined" ++ nl
        ++ Str.of_string "Model: undefined" ++ nl
        ++ Str.of_string "Ward: undefined" ++ nl
        ++ Str.of_string "Timestamp: 2024-01-15T10:30:00Z").
Proof. split; vm_compute; reflexivity. Qed.

Lemma rows_of_safe_paths_witness :
  let paths := [ Str.of_string "DeviceId"; Str.of_string "LogData.Ward";
                 Str.of_string "LogData.TagDetail.Key" ] in
  Forall (fun p => Path.safe p = true) paths ∧
  (∃ rows,
     flatten Sample.host [Sample.reading; Sample.bare] (map Named paths)
     = Ok rows ∧
     length rows = 2 ∧ Forall (fun row => length row = 3) rows) ∧
  cell Sample.host Sample.bare (Named (Str.of_string "LogData.TagDetail.Key"))
  = Ok (VString []).
Proof.
  intros paths.
  assert (S : Forall (fun p => Path.safe p = true) paths)
    by (repeat constructor).
  split; [exact S|].
  destruct (rows_of_safe_paths Sample.host [Sample.reading; Sample.bare]
              paths S) as [R A].
  split; [exact R|].
  apply A, absent_here. reflexivity.
Defined.

Lemma format_doc_rendered host i doc :
  ∃ text, format_doc host i doc = Ok text ∧ Context.rendered i doc text.
Proof.
  unfold format_doc. rewrite get_optional_object.
  cbn [get mbind outcome_bind].
  destruct (get_optional_total host (member doc "LogData") "State" eq_refl)
    as [a Ha].
  destruct (get_optional_total host (member doc "LogData") "Model" eq_refl)
    as [b Hb].
  destruct (get_optional_total host (member doc "LogData") "Ward" eq_refl)
    as [c Hc].
  rewrite Ha, Hb, Hc. cbn [mbind outcome_bind].
  eexists. split; [reflexivity|].
  exists (to_string a), (to_string b), (to_string c).
  split; [reflexivity|].
  unfold Context.nested.
  unfold get_optional in Ha, Hb, Hc.
  destruct (member doc "LogData"); try (split_and!; exact I);
    cbn [nullish get] in Ha, Hb, Hc;
    injection Ha as <-; injection Hb as <-; injection Hc as <-;
    split_and!; reflexivity.
Qed.

Lemma format_docs_rendered host docs :
  ∀ i, ∃ blocks,
    format_docs host i docs = Ok blocks ∧ length blocks = length docs ∧
    ∀ j doc, docs !! j = Some doc ->
             ∃ text, blocks !! j = Some text ∧
                     Context.rendered (i + j) doc text.
Proof.
  induction docs as [|d docs IH]; intros i; cbn [format_docs].
  - exists []. split_and!; try reflexivity. intros j doc H. discriminate H.
  - destruct (format_doc_rendered host i d) as (text & -> & R).
    destruct (IH (S i)) as (blocks & -> & L & B).
    cbn [mbind outcome_bind]. exists (text :: blocks).
    split_and!; [reflexivity|cbn [length]; lia|].
    intros [|j] doc H.
    + injection H as <-. exists text. rewrite Nat.add_0_r. auto.
    + destruct (B j doc H) as (t & Ht & Rt). exists t.
      replace (i + S j) with (S i + j) by lia. auto.
Qed.

(** X17. For records whose rendered values can be converted to strings,
    the context assembler returns the blocks of the records joined by a
    blank line, one block per record in order, each the template under
    its ordinal counted from 1; the three nested fields show "undefined"
    when the record has no [LogData] and the members of [LogData]
    otherwise. *)
Theorem context_of_printable_records
    (host : value -> list ascii -> value) (docs : list document) :
  Forall (Context.printable_record host) docs ->
  ∃ blocks,
    formatContext host docs = Ok (Str.join (nl ++ nl) blocks) ∧
    length blocks = length docs ∧
    ∀ i doc, docs !! i = Some doc ->
             ∃ text, blocks !! i = Some text ∧ Context.rendered i doc text.
Proof.
  intros _. unfold formatContext.
  destruct (format_docs_rendered host docs 0) as (blocks & -> & L & B).
  cbn [mbind outcome_bind]. exists blocks. split_and!; auto.
Qed.

Lemma context_of_printable_records_witness :
  Forall (Context.printable_record Sample.host) [Sample.reading; Sample.bare] ∧
  ∃ blocks,
    formatContext Sample.host [Sample.reading; Sample.bare]
    = Ok (Str.join (nl ++ nl) blocks) ∧
    length blocks = 2 ∧
    ∀ i doc, [Sample.reading; Sample.bare] !! i = Some doc ->
             ∃ text, blocks !! i = Some text ∧ Context.rendered i doc text.
Proof.
  assert (P : Forall (Context.printable_record Sample.host)
                [Sample.reading; Sample.bare]).
  { repeat constructor;
      intros field v Hin E;
      repeat (apply elem_of_cons in Hin as [-> | Hin]);
      try (injection E as <-; reflexivity);
      apply elem_of_nil in Hin; contradiction. }
  split; [exact P|].
  exact (context_of_printable_records Sample.host
           [Sample.reading; Sample.bare] P).
Defined.

(** ** The full dump *)

Lemma assoc_without_embedding doc :
  assoc "embedding" (without_embedding doc) = None.
Proof.
  induction doc as [|[k v] doc IH]; [reflexivity|].
  unfold without_embedding in *. cbn [List.filter fst].
  destruct (Str.eqb k "embedding") eqn:E; cbn [negb]; [exact IH|].
  cbn [assoc]. destruct (Str.eqb "embedding" k) eqn:E'; [|exact IH].
  apply Str_eqb_eq in E'. rewrite <- E', Str_eqb_refl in E. discriminate.
Qed.

Lemma assoc_other_fields doc k :
  k ≠ Str.of_string "embedding" ->
  assoc k (without_embedding doc) = assoc k doc.
Proof.
  intros Hk. induction doc as [|[k' v] doc IH]; [reflexivity|].
  unfold without_embedding in *. cbn [List.filter fst].
  destruct (Str.eqb k' "embedding") eqn:E; cbn [negb assoc].
  - apply Str_eqb_eq in E. subst k'.
    destruct (Str.eqb k "embedding") eqn:E'; [|exact IH].
    apply Str_eqb_eq in E'. contradiction.
  - rewrite IH. reflexivity.
Qed.

Lemma dump_events i docs :
  ∃ t,
    for_each_from i
      (fun i doc =>
         io_bind (emit (Console (LogHeader (decimal (i + 1)))))
                 (fun _ => emit (Console (LogBody (without_embedding doc)))))
      docs = (t, Ok tt) ∧
    displayed t = map without_embedding docs.
Proof.
  revert i. induction docs as [|d docs IH]; intros i.
  - exists []. split; reflexivity.
  - destruct (IH (S i)) as (t & E & D).
    exists (Console (LogHeader (decimal (i + 1)))
            :: Console (LogBody (without_embedding d)) :: t).
    split.
    + cbn [for_each_from]. rewrite E. reflexivity.
    + change (without_embedding d :: displayed t =
              without_embedding d :: map without_embedding docs).
      rewrite D. reflexivity.
Qed.

Lemma without_embedding_only doc :
  only_embedding_removed doc (without_embedding doc).
Proof.
  split_and!.
  - apply assoc_without_embedding.
  - intros k. apply assoc_other_fields.
  - intros kv. unfold without_embedding. rewrite filter_In.
    rewrite negb_true_iff, <- not_true_iff_false, Str_eqb_eq. reflexivity.
Qed.

(** C7. In a show-all-logs turn whose find succeeds, the records displayed
    are the first 50 at most of those storage found, in order, each being
    the stored record with its [embedding] field removed and every other
    field unchanged. *)
Theorem full_dump_removes_only_the_embedding
    (host : value -> list ascii -> value) (w : world)
    (question : list ascii) (found : list document) :
  isShowLogsQuery question = true ->
  storage_connect w = Ok tt ->
  storage_find w (extractFiltersOnly question) None = Ok found ->
  storage_close w = Ok tt ->
  ∃ t,
    turn host w question =
      Some (Connect :: CallFind (extractFiltersOnly question) None 50
            :: Close :: t) ∧
    length (displayed t) <= 50 ∧
    Forall2 only_embedding_removed (take 50 found) (displayed t).
Proof.
  intros Hshow Hconnect Hfind Hclose. unfold turn.
  rewrite (show_logs_not_exit _ Hshow), (dispatch_show _ _ _ Hshow).
  unfold show_logs_branch, call. rewrite Hconnect, Hfind, Hclose.
  cbn [io_bind app].
  assert (L : length (take 50 found) <= 50) by (rewrite length_take; lia).
  destruct (take 50 found) as [|d ds] eqn:E.
  - exists [Console NoMatchingLogs]. split_and!; [reflexivity|simpl; lia|].
    constructor.
  - destruct (dump_events 0 (d :: ds)) as (t & Ht & D).
    rewrite Ht. exists t. split_and!; [reflexivity| |].
    + rewrite D, length_map. exact L.
    + rewrite D. clear. induction (d :: ds); constructor; auto.
      apply without_embedding_only.
Qed.

Lemma full_dump_removes_only_the_embedding_witness :
  let question := Str.of_string "show logs for deviceid=ABC123" in
  let w := Sample.world_with [Sample.reading; Sample.bare] VNull in
  isShowLogsQuery question = true ∧
  storage_find w (extractFiltersOnly question) None =
    Ok [Sample.reading; Sample.bare] ∧
  ∃ t,
    turn Sample.host w question =
      Some (Connect :: CallFind (extractFiltersOnly question) None 50
            :: Close :: t) ∧
    length (displayed t) <= 50 ∧
    Forall2 only_embedding_removed
      (take 50 [Sample.reading; Sample.bare]) (displayed t).
Proof.
  split; [vm_compute; reflexivity|]. split; [reflexivity|].
  apply (full_dump_removes_only_the_embedding Sample.host
           (Sample.world_with [Sample.reading; Sample.bare] VNull)
           (Str.of_string "show logs for deviceid=ABC123")
           [Sample.reading; Sample.bare]);
    [vm_compute; reflexivity|reflexivity..].
Defined.

(** ** The semantic fallback *)

(** C8. When the similarity search of a fallback turn returns no record,
    the context is the empty text and the generator is still called, with
    the empty context and the question as typed; what is printed is the
    generator's answer (or its failure), never a no-results message. *)
Theorem empty_retrieval_still_asks_the_generator
    (host : value -> list ascii -> value) (w : world)
    (question : list ascii) (body vec : value) :
  classify question = SemanticFallback ->
  is_exit question = false ->
  post_embeddings w EMBEDDING_MODEL question = Ok body ->
  get host body "embedding" = Ok vec ->
  storage_connect w = Ok tt ->
  storage_aggregate w [vectorSearchStage vec None] = Ok [] ->
  storage_close w = Ok tt ->
  formatContext host [] = Ok [] ∧
  turn host w question =
    Some ([ CallEmbeddings EMBEDDING_MODEL question;
            Connect;
            CallAggregate [vectorSearchStage vec None];
            Close;
            CallGenerate CHAT_MODEL (prompt_of [] question) ]
          ++ match post_generate w CHAT_MODEL (prompt_of [] question) with
             | Ok data =>
                 match get host data "response" with
                 | Ok answer => [Console (Answer (to_string answer))]
                 | Throw e => [Console (ErrorMessage e)]
                 end
             | Throw e => [Console (ErrorMessage e)]
             end).
Proof.
  intros Hc Hexit Hbody Hvec Hconnect Hagg Hclose. split; [reflexivity|].
  unfold turn. rewrite Hexit, (dispatch_fallback _ _ _ Hc).
  unfold fallback_branch, generateEmbedding, searchSimilarLogs, askMistral,
    call, lift.
  rewrite Hbody. cbn [io_bind app]. rewrite Hvec. cbn [io_bind app].
  rewrite Hconnect. cbn [io_bind app]. rewrite Hagg, Hclose.
  cbn [io_bind io_ret app formatContext format_docs mbind outcome_bind
       Str.join].
  destruct (post_generate w CHAT_MODEL (prompt_of [] question)) as [data|e];
    cbn [io_bind app catch]; [|reflexivity].
  destruct (get host data "response") as [answer|e];
    cbn [io_bind app catch emit]; reflexivity.
Qed.

Lemma empty_retrieval_still_asks_the_generator_witness :
  let question := Str.of_string "What errors occurred yesterday?" in
  let body := VObject [(Str.of_string "embedding", Sample.vector)] in
  let w := Sample.world_with [] body in
  classify question = SemanticFallback ∧
  is_exit question = false ∧
  turn Sample.host w question =
    Some [ CallEmbeddings EMBEDDING_MODEL question;
           Connect;
           CallAggregate [vectorSearchStage Sample.vector None];
           Close;
           CallGenerate CHAT_MODEL (prompt_of [] question);
           Console (Answer (Str.of_string "No logs.")) ].
Proof.
  split; [vm_compute; reflexivity|]. split; [vm_compute; reflexivity|].
  apply (proj2 (empty_retrieval_still_asks_the_generator Sample.host
           (Sample.world_with []
              (VObject [(Str.of_string "embedding", Sample.vector)]))
           (Str.of_string "What errors occurred yesterday?")
           (VObject [(Str.of_string "embedding", Sample.vector)])
           Sample.vector
           ltac:(vm_compute; reflexivity) ltac:(vm_compute; reflexivity)
           eq_refl eq_refl eq_refl eq_refl eq_refl)).
Defined.

Section Traces.
Variable P : event -> Prop.

Lemma Forall_bind {A B} (m : io A) (f : A -> io B) :
  Forall P m.1 -> (∀ a, Forall P (f a).1) -> Forall P (io_bind m f).1.
Proof.
  intros Hm Hf. rewrite io_bind_events. apply Forall_app. split; auto.
  destruct m.2; auto.
Qed.

Lemma Forall_emit e : P e -> Forall P (emit e).1.
Proof. intros H. repeat constructor. exact H. Qed.

Lemma Forall_call {A} e (r : outcome A) : P e -> Forall P (call e r).1.
Proof. intros H. repeat constructor. exact H. Qed.

Lemma Forall_lift {A} (r : outcome A) : Forall P (lift r).1.
Proof. constructor. Qed.

Lemma Forall_ret {A} (a : A) : Forall P (io_ret a).1.
Proof. constructor. Qed.

Lemma Forall_for_each {A} (f : A -> io unit) l :
  (∀ a, Forall P (f a).1) -> Forall P (for_each f l).1.
Proof.
  intros Hf. induction l as [|a l IH]; simpl; [constructor|].
  apply Forall_bind; auto.
Qed.

Lemma Forall_for_each_from {A} i (f : nat -> A -> io unit) l :
  (∀ i a, Forall P (f i a).1) -> Forall P (for_each_from i f l).1.
Proof.
  intros Hf. revert i. induction l as [|a l IH]; intros i; simpl;
    [constructor|].
  apply Forall_bind; auto.
Qed.

Lemma Forall_catch (m : io unit) :
  Forall P m.1 -> (∀ e, P (Console (ErrorMessage e))) -> Forall P (catch m).
Proof.
  intros Hm He. rewrite catch_events. apply Forall_app. split; auto.
  destruct m.2; repeat constructor. apply He.
Qed.
End Traces.

Ltac trace_step :=
  first
    [ apply Forall_bind; [|intros]
    | apply Forall_emit
    | apply Forall_call
    | apply Forall_lift
    | apply Forall_ret
    | apply Forall_for_each; intros
    | apply Forall_for_each_from; intros ].

Lemma stage_without_filter embedding :
  filter (vectorSearchStage embedding None) = None.
Proof.
  unfold vectorSearchStage. cbn [filter].
  rewrite bool_decide_eq_true_2; reflexivity.
Qed.

Lemma turn_sends_no_filter host w question t :
  turn host w question = Some t -> Forall sends_no_filter t.
Proof.
  unfold turn. destruct (is_exit question); [discriminate|].
  intros [= <-]. apply Forall_catch; [|intros; exact I].
  rewrite dispatch_by_intent.
  assert (F : Forall sends_no_filter (fallback_branch host w question).1).
  { unfold fallback_branch, generateEmbedding, searchSimilarLogs, askMistral.
    repeat trace_step; try exact I.
    constructor; [apply stage_without_filter|constructor]. }
  destruct (classify question); [| | |exact F].
  - unfold show_logs_branch. repeat trace_step; try exact I.
    destruct (take 50 _); repeat trace_step; exact I.
  - destruct (Re.list_unique question); [|exact F].
    unfold list_unique_branch. repeat trace_step; try exact I.
    match goal with |- context [match ?l with [] => _ | _ :: _ => _ end] =>
      destruct l end; repeat trace_step; exact I.
  - unfold structured_branch.
    destruct (fields (extractFieldsAndFilters question));
      [repeat trace_step; exact I|].
    unfold queryMongo. repeat trace_step; try exact I.
    match goal with |- context [match ?l with [] => _ | _ :: _ => _ end] =>
      destruct l end; repeat trace_step; exact I.
Qed.

(** C9. The stage [searchSimilarLogs] builds has a [filter] exactly when a
    non-empty filter mapping is passed in, and then it is that mapping; the
    fallback passes none, so no aggregate call of a session carries a
    filter. *)
Theorem fallback_search_is_unfiltered
    (host : value -> list ascii -> value) :
  (∀ embedding filters f,
     filter (vectorSearchStage embedding filters) = Some f <->
     filters = Some f ∧ f ≠ ∅) ∧
  (∀ inputs, Forall sends_no_filter (main host inputs)).
Proof.
  split.
  - intros embedding filters f. unfold vectorSearchStage. cbn [filter].
    destruct filters as [g|].
    + case_bool_decide as E; split.
      * discriminate.
      * intros [[= ->] N]. contradiction.
      * intros [= ->]. auto.
      * intros [[= ->] _]. reflexivity.
    + rewrite bool_decide_eq_true_2 by reflexivity.
      split; [discriminate|intros [? _]; discriminate].
  - intros inputs. unfold main. constructor; [exact I|].
    induction inputs as [|[w question] rest IH]; simpl; [constructor|].
    destruct (turn host w question) as [t|] eqn:E; [|constructor].
    apply Forall_app. split; [|exact IH].
    eapply turn_sends_no_filter, E.
Qed.

(** ** Determinism *)

Lemma turn_starts_with_plan host w question :
  is_exit question = false -> storage_connect w = Ok tt ->
  ∃ rest, turn host w question = Some (plan question ++ rest).
Proof.
  intros E C. unfold turn, plan. rewrite E, catch_events, dispatch_by_intent.
  destruct (classify question).
  - unfold show_logs_branch. rewrite io_bind_events. unfold call at 1.
    rewrite C. cbn [fst snd app]. rewrite io_bind_events.
    cbn [call fst app]. eauto.
  - destruct (Re.list_unique question) as [group1|]; [|cbn [app]; eauto].
    unfold list_unique_branch. rewrite io_bind_events. unfold call at 1.
    rewrite C. cbn [fst snd app]. rewrite io_bind_events.
    cbn [call fst app]. eauto.
  - unfold structured_branch.
    destruct (fields (extractFieldsAndFilters question)) as [|f fs] eqn:F.
    + cbn. eauto.
    + unfold queryMongo. rewrite io_bind_events, io_bind_events.
      unfold call at 1 2. rewrite C.
      repeat (cbn [emit call fst snd app]; rewrite io_bind_events).
      cbn [emit call fst snd app]. eauto.
  - unfold fallback_branch, generateEmbedding. rewrite !io_bind_events.
    cbn [call fst app]. eauto.
Qed.

Lemma loop_app host before rest :
  Forall goes_on before ->
  loop host (before ++ rest) = loop host before ++ loop host rest.
Proof.
  induction 1 as [|[w question] before E _ IH]; [reflexivity|].
  unfold goes_on in E. cbn [snd] in E. cbn [app loop]. unfold turn.
  rewrite E, IH. apply app_assoc.
Qed.

(** C10. Classification and extraction are functions of the question
    alone: in any two sessions, whatever was asked and answered before and
    whatever the outside answers now, the turn of one question opens with
    the same request (storage being reachable), made from the same intent,
    field list and filter mapping, computed from the alias table as it was
    at the start. *)
Theorem same_question_same_request
    (host1 host2 : value -> list ascii -> value)
    (before1 before2 : list (world * list ascii)) (w1 w2 : world)
    (question : list ascii) :
  Forall goes_on before1 -> Forall goes_on before2 ->
  is_exit question = false ->
  storage_connect w1 = Ok tt -> storage_connect w2 = Ok tt ->
  ∃ rest1 rest2,
    main host1 (before1 ++ [(w1, question)]) =
      main host1 before1 ++ plan question ++ rest1 ∧
    main host2 (before2 ++ [(w2, question)]) =
      main host2 before2 ++ plan question ++ rest2.
Proof.
  intros B1 B2 E C1 C2.
  destruct (turn_starts_with_plan host1 w1 question E C1) as [rest1 T1].
  destruct (turn_starts_with_plan host2 w2 question E C2) as [rest2 T2].
  exists rest1, rest2. unfold main.
  rewrite !loop_app by assumption.
  cbn [loop]. rewrite T1, T2, !app_nil_r. split; reflexivity.
Qed.

Lemma same_question_same_request_witness :
  let question := Str.of_string "list deviceid and model where ward=ICU" in
  let earlier := Str.of_string "show logs for deviceid=ABC123" in
  let w1 := Sample.world_with [Sample.reading] VNull in
  let w2 := Sample.world_with [] VNull in
  plan question =
    [ Connect;
      Console (MongoFilters
        {[ Str.of_string "LogData.Ward" :=
             Regex (Str.of_string "ICU") (Str.of_string "i") ]});
      Console (ProjectingFields
        [Named (Str.of_string "DeviceId");
         Named (Str.of_string "LogData.Model")]);
      CallFind
        {[ Str.of_string "LogData.Ward" :=
             Regex (Str.of_string "ICU") (Str.of_string "i") ]}
        (Some {[ Str.of_string "DeviceId"; Str.of_string "LogData.Model" ]})
        100 ] ∧
  ∃ rest1 rest2,
    main Sample.host ([(w1, earlier)] ++ [(w1, question)]) =
      main Sample.host [(w1, earlier)] ++ plan question ++ rest1 ∧
    main Sample.host ([] ++ [(w2, question)]) =
      main Sample.host [] ++ plan question ++ rest2.
Proof.
  split; [vm_compute; reflexivity|].
  apply (same_question_same_request Sample.host Sample.host
           [(Sample.world_with [Sample.reading] VNull,
             Str.of_string "show logs for deviceid=ABC123")]
           []
           (Sample.world_with [Sample.reading] VNull)
           (Sample.world_with [] VNull)
           (Str.of_string "list deviceid and model where ward=ICU")).
  - repeat constructor.
  - constructor.
  - vm_compute. reflexivity.
  - reflexivity.
  - reflexivity.
Defined.

(** ** More on the alias table and the extractors *)

Lemma FIELD_ALIASES_fixed k canonical :
  assoc k FIELD_ALIASES = Some canonical ->
  resolve canonical = Named canonical ∧
  forallb Str.is_field_char canonical = true.
Proof.
  intros H. apply assoc_In in H.
  assert (F : forallb
            (fun kv : list ascii * list ascii =>
               bool_decide (resolve kv.2 = Named kv.2)
               && forallb Str.is_field_char kv.2)
            FIELD_ALIASES = true) by (vm_compute; reflexivity).
  rewrite forallb_forall in F. specialize (F _ H).
  apply andb_true_iff in F as [F1 F2].
  apply bool_decide_eq_true_1 in F1. auto.
Qed.

(** X2. The alias lookup ignores letter case and its results are fixed
    points: two names with the same lower-case form that is a key of the
    table resolve to the same canonical path, and resolving that path
    again gives the path itself. *)
Theorem resolve_ignores_case_and_is_idempotent
    (x y canonical : list ascii) :
  Str.toLowerCase x = Str.toLowerCase y ->
  assoc (Str.toLowerCase x) FIELD_ALIASES = Some canonical ->
  resolve x = Named canonical ∧ resolve y = Named canonical ∧
  resolve canonical = Named canonical.
Proof.
  intros Hxy Hx.
  assert (R : ∀ z, Str.toLowerCase z = Str.toLowerCase x ->
                   resolve z = Named canonical).
  { intros z Hz. unfold resolve, resolve_in, table_get. rewrite Hz, Hx.
    cbn [name_truthy]. rewrite (FIELD_ALIASES_nonempty _ _ Hx). reflexivity. }
  split_and!; [apply R; reflexivity|apply R; auto|].
  apply (FIELD_ALIASES_fixed _ _ Hx).
Qed.

Lemma resolve_ignores_case_and_is_idempotent_witness :
  resolve "WaRd" = Named (Str.of_string "LogData.Ward") ∧
  resolve "ward" = Named (Str.of_string "LogData.Ward") ∧
  resolve "LogData.Ward" = Named (Str.of_string "LogData.Ward").
Proof.
  apply (resolve_ignores_case_and_is_idempotent
           (Str.of_string "WaRd") (Str.of_string "ward")
           (Str.of_string "LogData.Ward"));
    vm_compute; reflexivity.
Defined.

Lemma clean_is_clean s : forallb Str.is_field_char (clean s) = true.
Proof.
  unfold clean, Str.strip. apply forallb_forall. intros c Hc.
  apply filter_In in Hc as [_ Hc]. rewrite !negb_true_iff in Hc.
  apply negb_false_iff in Hc. exact Hc.
Qed.

(** X3. Every field name the structured extractor yields is non-empty and
    made of the characters [[a-zA-Z0-9_.]] only, whatever the question:
    the keys of the projection never hold a dollar sign, a space or a
    quote. *)
Theorem extracted_field_names_are_clean (query s : list ascii) :
  In (Named s) (fields (extractFieldsAndFilters query)) ->
  nonempty s = true ∧ forallb Str.is_field_char s = true.
Proof.
  unfold extractFieldsAndFilters, extractFieldsAndFilters_in.
  destruct (Re.fields_and_filter query) as [[rawFields rawFilter]|];
    [|intros []].
  cbn [fields]. rewrite fold_add_field. cbn [app].
  intros H. apply in_map_iff in H as (t & Ht & Hin).
  apply filter_In in Hin as [Hin Hne].
  apply in_map_iff in Hin as (piece & <- & _).
  unfold resolve_in, table_get in Ht.
  destruct (assoc (Str.toLowerCase (clean piece)) FIELD_ALIASES)
    as [c|] eqn:E.
  - cbn [name_truthy] in Ht. rewrite (FIELD_ALIASES_nonempty _ _ E) in Ht.
    injection Ht as <-. split.
    + apply (FIELD_ALIASES_nonempty _ _ E).
    + apply (FIELD_ALIASES_fixed _ _ E).
  - destruct (object_prototype_member (Str.toLowerCase (clean piece)));
      cbn [option_map name_truthy] in Ht; [discriminate|].
    injection Ht as <-. split; [exact Hne|apply clean_is_clean].
Qed.

Lemma extracted_field_names_are_clean_witness :
  fields (extractFieldsAndFilters "list $where, device id!, ward") =
    [ Named (Str.of_string "where"); Named (Str.of_string "DeviceId");
      Named (Str.of_string "LogData.Ward") ] ∧
  nonempty "where" = true ∧ forallb Str.is_field_char "where" = true.
Proof.
  split; [vm_compute; reflexivity|].
  apply (extracted_field_names_are_clean
           (Str.of_string "list $where, device id!, ward")
           (Str.of_string "where")).
  vm_compute. auto.
Defined.

Lemma normalised_truthy anchored key p :
  normalised anchored key p -> predicate_truthy p = true.
Proof.
  intros (k & v & _ & Hv & _ & [[_ ->]|[_ ->]]); [exact Hv|reflexivity].
Qed.

Lemma structured_filters_normalised query key p :
  filters (extractFieldsAndFilters query) !! key = Some p ->
  normalised false key p.
Proof.
  unfold extractFieldsAndFilters, extractFieldsAndFilters_in.
  destruct (Re.fields_and_filter query) as [[f [clause|]]|]; cbn [filters];
    try (rewrite lookup_empty; discriminate).
  destruct (nonempty clause); [|rewrite lookup_empty; discriminate].
  apply fold_left_normalised.
  - apply add_token_normalised.
  - intros ? ?. rewrite lookup_empty. discriminate.
Qed.

(** X4. [queryMongo] drops the filters whose value is falsy, and no filter
    the structured extractor yields is: the find is sent with exactly the
    extracted filter mapping. *)
Theorem query_keeps_every_extracted_filter (query : list ascii) :
  clean_filters (filters (extractFieldsAndFilters query)) =
  filters (extractFieldsAndFilters query).
Proof.
  unfold clean_filters. apply map_filter_id. intros key p H. cbn [snd].
  eapply normalised_truthy, structured_filters_normalised, H.
Qed.

Lemma search_sound {R} (m : @Re.cont R) prev s r :
  Re.search m prev s = Some r ->
  ∃ a b prev', s = a ++ b ∧ m prev' b = Some r.
Proof.
  revert prev. induction s as [|c s IH]; intros prev H; cbn [Re.search] in H.
  - destruct (m prev []) eqn:E; [|discriminate].
    injection H as ->. exists [], [], prev. auto.
  - destruct (m prev (c :: s)) eqn:E.
    + injection H as ->. exists [], (c :: s), prev. auto.
    + apply IH in H as (a & b & prev' & -> & H).
      exists (c :: a), b, prev'. auto.
Qed.

Lemma filter_word_sound {R} (k : @Re.cont R) prev s r :
  Re.filter_word k prev s = Some r ->
  ∃ w rest, s = w ++ rest ∧ k (after prev w) rest = Some r.
Proof.
  unfold Re.filter_word. intros H.
  apply orelse_Some in H as [H|H];
    [|apply orelse_Some in H as [H|H];
      [|apply orelse_Some in H as [H|H]]];
    apply lit_sound in H as (x & rest & -> & _ & Hk); eauto.
Qed.

(** The clause [extractFiltersOnly] reads is a part of the question. *)
Lemma filter_clause_inside query clause :
  Re.filter_clause query = Some clause ->
  ∃ a b, query = a ++ clause ++ b.
Proof.
  unfold Re.filter_clause. intros H.
  apply search_sound in H as (a & s1 & prev & -> & H).
  apply filter_word_sound in H as (w & s2 & -> & H).
  apply plus_sound in H as (gap & s3 & -> & _ & _ & H).
  unfold Re.capture, Re.star in H.
  assert (T : ∀ x rest : list ascii,
    take (length (x ++ rest) - length rest) (x ++ rest) = x).
  { intros x rest. rewrite length_app, Nat.add_sub. apply take_app_length. }
  apply orelse_Some in H as [H|H].
  - apply plus_sound in H as (x & rest & -> & _ & _ & H).
    unfold Re.accept in H. injection H as <-. rewrite T.
    exists (a ++ w ++ gap), rest. rewrite <- !app_assoc. reflexivity.
  - unfold Re.accept in H. injection H as <-.
    rewrite Nat.sub_diag, take_0.
    exists (a ++ w ++ gap), s3. rewrite <- !app_assoc. reflexivity.
Qed.

Lemma and_or_comma_keeps_out P n s :
  length s <= n -> existsb P s = false ->
  Forall (fun piece => existsb P piece = false) (Split.and_or_comma s).
Proof.
  revert s. induction n as [|n IH]; intros [|c r] Hlen Hs; simpl in Hlen;
    try lia; try (repeat constructor).
  rewrite and_or_comma_unfold.
  cbn [existsb] in Hs. apply orb_false_iff in Hs as [Hc Hr].
  destruct (Ascii.eqb c ",").
  - constructor; [reflexivity|]. apply IH; [lia|exact Hr].
  - destruct (Str.strip_prefix "and" (c :: r)) as [r'|] eqn:Hand.
    + pose proof (strip_prefix_app _ _ _ Hand) as E.
      change (Str.of_string "and" ++ r') with ("a" :: "n" :: "d" :: r')%char
        in E.
      injection E as _ ->. cbn [existsb] in Hr.
      apply orb_false_iff in Hr as [_ Hr]. apply orb_false_iff in Hr as [_ Hr].
      constructor; [reflexivity|]. apply IH; [simpl in Hlen; lia|exact Hr].
    + specialize (IH r ltac:(lia) Hr).
      destruct (Split.and_or_comma r) as [|p ps]; cbn [Split.push_char].
      * repeat constructor. cbn [existsb]. rewrite Hc. reflexivity.
      * inversion IH; subst. constructor; [|assumption].
        cbn [existsb]. rewrite Hc. assumption.
Qed.

Lemma add_condition_without_equals table flt cond :
  existsb (Ascii.eqb "=") cond = false ->
  add_condition table flt cond = flt.
Proof.
  intros H. unfold add_condition.
  rewrite (on_char_without _ _ H). reflexivity.
Qed.

(** X5. The global-filter path of show-all-logs reads conditions of the
    form key=value only: a question without an equals sign yields the
    empty filter mapping, so "show logs for ward ICU" dumps unfiltered. *)
Theorem no_equals_sign_no_global_filter (query : list ascii) :
  existsb (Ascii.eqb "=") query = false ->
  extractFiltersOnly query = ∅.
Proof.
  intros H. unfold extractFiltersOnly, extractFiltersOnly_in.
  destruct (Re.filter_clause query) as [clause|] eqn:E; [|reflexivity].
  apply filter_clause_inside in E as (a & b & ->).
  rewrite !existsb_app in H.
  apply orb_false_iff in H as [_ H]. apply orb_false_iff in H as [H _].
  pose proof (and_or_comma_keeps_out _ _ clause (le_n _) H) as F.
  assert (G : ∀ conds flt,
    Forall (fun cond => existsb (Ascii.eqb "=") cond = false) conds ->
    fold_left (add_condition FIELD_ALIASES) conds flt = flt).
  { intros conds flt F'. revert flt.
    induction F' as [|cond conds Hc _ IH]; intros flt; cbn [fold_left].
    - reflexivity.
    - rewrite (add_condition_without_equals _ _ _ Hc). apply IH. }
  apply G, F.
Qed.

Lemma no_equals_sign_no_global_filter_witness :
  isShowLogsQuery "show logs for ward ICU" = true ∧
  extractFiltersOnly "show logs for ward ICU" = ∅ ∧
  filters (extractFieldsAndFilters "list model for ward ICU") =
    {[ Str.of_string "LogData.Ward" :=
         Regex (Str.of_string "ICU") (Str.of_string "i") ]}.
Proof.
  split; [vm_compute; reflexivity|]. split; [|vm_compute; reflexivity].
  apply (no_equals_sign_no_global_filter
           (Str.of_string "show logs for ward ICU")).
  vm_compute. reflexivity.
Defined.

(** ** How a turn ends *)

(** X6. When the embedding request of a fallback turn throws (the request
    fails, or the body of the response is [null]), the turn prints that
    error and
    does nothing else: storage is not contacted and the generator is not
    called. *)
Theorem embedding_failure_ends_the_turn
    (host : value -> list ascii -> value) (w : world)
    (question e : list ascii) :
  classify question = SemanticFallback ->
  is_exit question = false ->
  (generateEmbedding host w question).2 = Throw e ->
  turn host w question =
    Some [ CallEmbeddings EMBEDDING_MODEL question;
           Console (ErrorMessage e) ].
Proof.
  intros Hc Hexit H. unfold turn.
  rewrite Hexit, (dispatch_fallback _ _ _ Hc), catch_events.
  unfold fallback_branch.
  rewrite io_bind_events, io_bind_outcome, H.
  unfold generateEmbedding. rewrite io_bind_events.
  unfold generateEmbedding in H. rewrite io_bind_outcome in H.
  cbn [call fst snd] in *.
  destruct (post_embeddings w EMBEDDING_MODEL question);
    cbn [lift fst snd app]; reflexivity.
Qed.

Lemma embedding_failure_ends_the_turn_witness :
  let question := Str.of_string "What errors occurred yesterday?" in
  turn Sample.host (Faulty.embeds_only []) question =
    Some [ CallEmbeddings EMBEDDING_MODEL question;
           Console (ErrorMessage
             (Str.of_string "Request failed with status code 500")) ] ∧
  turn Sample.host (Sample.world_with [] VNull) question =
    Some [ CallEmbeddings EMBEDDING_MODEL question;
           Console (ErrorMessage
             (Str.of_string
                "Cannot read properties of null (reading 'embedding')")) ].
Proof.
  split.
  - apply (embedding_failure_ends_the_turn Sample.host
             (Faulty.embeds_only [])
             (Str.of_string "What errors occurred yesterday?"));
      vm_compute; reflexivity.
  - apply (embedding_failure_ends_the_turn Sample.host
             (Sample.world_with [] VNull)
             (Str.of_string "What errors occurred yesterday?"));
      vm_compute; reflexivity.
Defined.

Lemma classify_list_unique question :
  classify question = ListUniqueField ->
  ∃ group1, Re.list_unique question = Some group1.
Proof.
  unfold classify. destruct (isShowLogsQuery question); [discriminate|].
  case_bool_decide as E; [intros _; exact E|].
  destruct (bool_decide _); discriminate.
Qed.

(** X7. When storage cannot be reached, a turn that needs it (a full
    dump, a list of unique values, a structured list with at least one
    field) connects, prints the error and does nothing else: no query is
    sent and nothing is closed. *)
Theorem unreachable_storage_ends_the_turn
    (host : value -> list ascii -> value) (w : world)
    (question e : list ascii) :
  storage_connect w = Throw e ->
  is_exit question = false ->
  classify question = ShowAllLogs ∨
  classify question = ListUniqueField ∨
  (classify question = StructuredList ∧
   fields (extractFieldsAndFilters question) ≠ []) ->
  turn host w question = Some [Connect; Console (ErrorMessage e)].
Proof.
  intros Hw Hexit Hc. unfold turn.
  rewrite Hexit, catch_events, dispatch_by_intent.
  destruct Hc as [Hc|[Hc|[Hc Hf]]]; rewrite Hc.
  - unfold show_logs_branch. rewrite io_bind_events, io_bind_outcome.
    unfold call at 1 2. rewrite Hw. reflexivity.
  - destruct (classify_list_unique _ Hc) as [group1 ->].
    unfold list_unique_branch. rewrite io_bind_events, io_bind_outcome.
    unfold call at 1 2. rewrite Hw. reflexivity.
  - unfold structured_branch.
    destruct (fields (extractFieldsAndFilters question)) as [|f fs];
      [contradiction|].
    unfold queryMongo.
    rewrite io_bind_events, io_bind_outcome, io_bind_events, io_bind_outcome.
    unfold call at 1 2 3. rewrite Hw. reflexivity.
Qed.

Lemma unreachable_storage_ends_the_turn_witness :
  let w := Faulty.unreachable (Str.of_string "connect ECONNREFUSED") in
  let e := Console (ErrorMessage (Str.of_string "connect ECONNREFUSED")) in
  turn Sample.host w "show all logs" = Some [Connect; e] ∧
  turn Sample.host w "list unique ward" = Some [Connect; e] ∧
  turn Sample.host w "find model where ward=ICU" = Some [Connect; e].
Proof.
  split_and!.
  - apply (unreachable_storage_ends_the_turn Sample.host
             (Faulty.unreachable (Str.of_string "connect ECONNREFUSED"))
             (Str.of_string "show all logs")); [reflexivity..|].
    left. vm_compute. reflexivity.
  - apply (unreachable_storage_ends_the_turn Sample.host
             (Faulty.unreachable (Str.of_string "connect ECONNREFUSED"))
             (Str.of_string "list unique ward")); [reflexivity..|].
    right; left. vm_compute. reflexivity.
  - apply (unreachable_storage_ends_the_turn Sample.host
             (Faulty.unreachable (Str.of_string "connect ECONNREFUSED"))
             (Str.of_string "find model where ward=ICU")); [reflexivity..|].
    right; right. split; [vm_compute; reflexivity|].
    vm_compute. discriminate.
Defined.

Lemma is_word_not_space c : Str.is_word c = true -> Str.is_space c = false.
Proof.
  unfold Str.is_word, Str.is_space, Str.is_upper, Str.is_lower, Str.is_digit,
    Str.in_range.
  generalize (Str.code c). intros n.
  rewrite !orb_true_iff, !andb_true_iff, !orb_false_iff, !andb_false_iff,
    !N.leb_le, !N.eqb_eq, !N.leb_gt, !N.eqb_neq.
  lia.
Qed.

Lemma eq_ci_lower p c :
  Str.eq_ci p c = true -> Str.is_lower p = true -> Str.lower_char c = p.
Proof.
  unfold Str.eq_ci, Str.lower_char. destruct (Str.is_upper c) eqn:U.
  - intros E _. apply Ascii.eqb_eq in E. symmetry. exact E.
  - intros E L. apply Ascii.eqb_eq in E. subst c. cbn [orb].
    replace (Str.in_range 192 222 p) with false; [reflexivity|].
    symmetry. revert L. unfold Str.is_lower, Str.in_range.
    generalize (Str.code p). intros n.
    rewrite andb_true_iff, andb_false_iff, !N.leb_le, !N.leb_gt. lia.
Qed.

Lemma word_ci_lower w x :
  Shape.is_word_ci w x = true -> forallb Str.is_lower w = true ->
  Str.toLowerCase x = w.
Proof.
  revert x. induction w as [|p w IH]; intros [|c x] H L;
    cbn [Shape.is_word_ci forallb] in *; try discriminate; [reflexivity|].
  apply andb_true_iff in H as [Hc Hx]. apply andb_true_iff in L as [Lp Lw].
  unfold Str.toLowerCase. cbn [map]. f_equal.
  - apply eq_ci_lower; assumption.
  - apply IH; assumption.
Qed.

Lemma word_ci_no_space w x :
  Shape.is_word_ci w x = true -> forallb Str.is_word w = true ->
  forallb (fun c => negb (Str.is_space c)) x = true.
Proof.
  revert x. induction w as [|p w IH]; intros [|c x] H L;
    cbn [Shape.is_word_ci forallb] in *; try discriminate; [reflexivity|].
  apply andb_true_iff in H as [Hc Hx]. apply andb_true_iff in L as [Lp Lw].
  rewrite (is_word_not_space c (eq_ci_word _ _ Hc Lp)). cbn [negb andb].
  apply IH; assumption.
Qed.

Lemma trimStart_spaces pre s :
  forallb Str.is_space pre = true ->
  Str.trimStart (pre ++ s) = Str.trimStart s.
Proof.
  induction pre as [|c pre IH]; cbn [forallb app Str.trimStart];
    [reflexivity|].
  intros H. apply andb_true_iff in H as [-> H]. auto.
Qed.

Lemma trimStart_no_space x s :
  nonempty x = true ->
  forallb (fun c => negb (Str.is_space c)) x = true ->
  Str.trimStart (x ++ s) = x ++ s.
Proof.
  destruct x as [|c x]; [discriminate|]. intros _ H.
  cbn [forallb] in H. apply andb_true_iff in H as [H _].
  apply negb_true_iff in H. cbn [app Str.trimStart]. rewrite H. reflexivity.
Qed.

Lemma forallb_rev {A} (f : A -> bool) l :
  forallb f l = true -> forallb f (rev l) = true.
Proof.
  rewrite !forallb_forall. intros H a Ha. apply H, in_rev, Ha.
Qed.

(** Trimming removes the white space around a text without white space. *)
Lemma trim_padded pre x post :
  forallb Str.is_space pre = true -> forallb Str.is_space post = true ->
  nonempty x = true ->
  forallb (fun c => negb (Str.is_space c)) x = true ->
  Str.trim (pre ++ x ++ post) = x.
Proof.
  intros Hpre Hpost Hne Hx. unfold Str.trim, Str.trimEnd.
  rewrite (trimStart_spaces _ _ Hpre), (trimStart_no_space _ _ Hne Hx).
  rewrite rev_app_distr, (trimStart_spaces _ _ (forallb_rev _ _ Hpost)).
  rewrite <- (app_nil_r (rev x)), trimStart_no_space.
  - rewrite app_nil_r. apply rev_involutive.
  - destruct x; [discriminate|]. cbn [rev].
    destruct (rev x); reflexivity.
  - apply forallb_rev, Hx.
Qed.

(** X8. The words "exit" and "q", in any letter case and with white space
    around them, leave the loop: the lines read after one of them are
    never processed. *)
Theorem exit_words_end_the_session
    (host : value -> list ascii -> value)
    (before after : list (world * list ascii)) (w : world)
    (pre x post : list ascii) :
  Forall goes_on before ->
  forallb Str.is_space pre = true -> forallb Str.is_space post = true ->
  (Shape.is_word_ci "exit" x || Shape.is_word_ci "q" x)%bool = true ->
  main host (before ++ (w, pre ++ x ++ post) :: after) = main host before.
Proof.
  intros B Hpre Hpost Hx. unfold main. f_equal. rewrite (loop_app _ _ _ B).
  cbn [loop]. unfold turn, is_exit.
  assert (E : Str.toLowerCase (Str.trim (pre ++ x ++ post)) =
              Str.of_string "exit" ∨
              Str.toLowerCase (Str.trim (pre ++ x ++ post)) =
              Str.of_string "q").
  { apply orb_true_iff in Hx as [Hx|Hx]; [left|right];
      (rewrite trim_padded;
       [apply word_ci_lower; [exact Hx|reflexivity]
       |assumption|assumption
       |destruct x; [discriminate Hx|reflexivity]
       |eapply word_ci_no_space; [exact Hx|reflexivity]]). }
  destruct E as [-> | ->]; cbn; apply app_nil_r.
Qed.

Lemma exit_words_end_the_session_witness :
  let w := Sample.world_with [Sample.reading] VNull in
  main Sample.host
    ([(w, Str.of_string "show logs")]
     ++ (w, Str.of_string "  " ++ Str.of_string "ExIt" ++ Str.of_string " ")
        :: [(w, Str.of_string "list deviceid")]) =
  main Sample.host [(w, Str.of_string "show logs")].
Proof.
  apply (exit_words_end_the_session Sample.host
           [(Sample.world_with [Sample.reading] VNull,
             Str.of_string "show logs")]
           [(Sample.world_with [Sample.reading] VNull,
             Str.of_string "list deviceid")]
           (Sample.world_with [Sample.reading] VNull)
           (Str.of_string "  ") (Str.of_string "ExIt") (Str.of_string " "));
    [repeat constructor|reflexivity..].
Defined.

Lemma structured_is_not_exit question :
  classify question = StructuredList -> is_exit question = false.
Proof.
  unfold classify. destruct (isShowLogsQuery question); [discriminate|].
  destruct (bool_decide (is_Some (Re.list_unique question)));
    [discriminate|].
  case_bool_decide as V; [intros _|discriminate].
  apply leading_verb_iff in V as (v & rest & Hv & _ & E).
  unfold is_exit. rewrite E. unfold Str.toLowerCase. rewrite map_app.
  fold (Str.toLowerCase v).
  assert (L : Str.toLowerCase v = Str.of_string "list" ∨
              Str.toLowerCase v = Str.of_string "show" ∨
              Str.toLowerCase v = Str.of_string "find").
  { unfold Shape.is_verb in Hv.
    apply orb_true_iff in Hv as [Hv|Hv];
      [apply orb_true_iff in Hv as [Hv|Hv]|];
      [left|right; left|right; right];
      apply word_ci_lower; auto. }
  apply orb_false_iff.
  destruct L as [-> |[-> | ->]]; split; apply not_true_is_false;
    intros Q; apply Str_eqb_eq in Q; discriminate Q.
Qed.

Lemma clean_filters_extracted query :
  clean_filters (filters (extractFieldsAndFilters query)) =
  filters (extractFieldsAndFilters query).
Proof.
  unfold clean_filters. apply map_filter_id. intros key p H. cbn [snd].
  eapply normalised_truthy, structured_filters_normalised, H.
Qed.

(** X9. A structured-list turn whose fields are strings, whose walks read
    neither [caller] nor [arguments] below the record, whose storage calls
    succeed and whose cells can be converted to strings reports no error:
    it connects, prints the filters and the fields, sends one find with
    the extracted filters, the projection of the fields and the cap 100,
    closes, and then prints either the no-results line (nothing found) or
    one table with a row for each of the first 100 documents found and a
    cell for each field. *)
Theorem structured_turn_prints_one_table
    (host : value -> list ascii -> value) (w : world)
    (question : list ascii) (paths : list (list ascii))
    (found : list document) :
  let ff := extractFieldsAndFilters question in
  classify question = StructuredList ->
  fields ff = map Named paths -> paths ≠ [] ->
  Forall (fun p => Path.safe p = true) paths ->
  storage_connect w = Ok tt ->
  storage_find w (filters ff) (Some (projection_of (fields ff))) = Ok found ->
  storage_close w = Ok tt ->
  (∀ rows, flatten host (take 100 found) (fields ff) = Ok rows ->
           printable_rows rows) ->
  ∃ last,
    turn host w question =
      Some [ Connect;
             Console (MongoFilters (filters ff));
             Console (ProjectingFields (fields ff));
             CallFind (filters ff) (Some (projection_of (fields ff))) 100;
             Close;
             Console last ] ∧
    structured_result paths found last.
Proof.
  intros ff Hc Hf Hp Hsafe Hconnect Hfind Hclose _. subst ff. unfold turn.
  rewrite (structured_is_not_exit _ Hc), dispatch_by_intent, Hc.
  unfold structured_branch, queryMongo.
  rewrite clean_filters_extracted.
  destruct (fields (extractFieldsAndFilters question)) as [|f fs] eqn:F.
  { destruct paths; [contradiction|discriminate]. }
  unfold call, emit. rewrite Hconnect, Hfind, Hclose.
  cbn [io_bind io_ret app].
  destruct (flatten_total host (take 100 found) paths Hsafe)
    as (rows & Hrows & L & R).
  destruct found as [|d ds].
  - cbn [take]. eexists. split; [reflexivity|]. reflexivity.
  - change (take 100 (d :: ds)) with (d :: take 99 ds) in *.
    rewrite <- Hf in Hrows. unfold lift. rewrite Hrows.
    cbn [io_bind io_ret app catch]. eexists. split; [reflexivity|].
    exists rows. rewrite Hf. split_and!; auto.
    rewrite L. cbn [length]. rewrite length_take. cbn [length]. lia.
Qed.

Lemma structured_turn_prints_one_table_witness :
  let question := Str.of_string "list deviceid and ward where state=connected" in
  let w := Sample.world_with [Sample.reading; Sample.bare] VNull in
  ∃ last,
    turn Sample.host w question =
      Some [ Connect;
             Console (MongoFilters (filters (extractFieldsAndFilters question)));
             Console (ProjectingFields
                        (fields (extractFieldsAndFilters question)));
             CallFind (filters (extractFieldsAndFilters question))
               (Some (projection_of
                        (fields (extractFieldsAndFilters question)))) 100;
             Close;
             Console last ] ∧
    last = Table [ Named (Str.of_string "DeviceId");
                   Named (Str.of_string "LogData.Ward") ]
                 [ [VString (Str.of_string "ABC123");
                    VString (Str.of_string "ICU")];
                   [VString (Str.of_string "XYZ9"); VString []] ].
Proof.
  destruct (structured_turn_prints_one_table Sample.host
              (Sample.world_with [Sample.reading; Sample.bare] VNull)
              (Str.of_string "list deviceid and ward where state=connected")
              [Str.of_string "DeviceId"; Str.of_string "LogData.Ward"]
              [Sample.reading; Sample.bare]
              ltac:(vm_compute; reflexivity) ltac:(vm_compute; reflexivity)
              ltac:(discriminate) ltac:(repeat constructor)
              eq_refl eq_refl eq_refl
              ltac:(intros rows E; vm_compute in E; injection E as <-;
                    repeat constructor))
    as (last & T & _).
  exists last. split; [exact T|].
  vm_compute in T. vm_compute. congruence.
Defined.

(** ** The ingestion run *)

Lemma text_parts_start host doc :
  ∃ rest,
    text_parts host doc =
      Ok (VString (Str.of_string "DeviceId: "
                   ++ to_string (member doc "DeviceId"))
          :: VString (Str.of_string "Org: "
                      ++ to_string (member doc "OrganizationId"))
          :: rest).
Proof.
  unfold text_parts. rewrite get_optional_object.
  cbn [get mbind outcome_bind].
  repeat match goal with
         | |- context [get_optional host ?v ?p] =>
             destruct (get_optional_total host v p eq_refl) as [? ->];
             cbn [mbind outcome_bind]
         end.
  eauto.
Qed.

Lemma join_head sep p ps : ∃ tail, Str.join sep (p :: ps) = p ++ tail.
Proof.
  destruct ps as [|q ps]; cbn [Str.join].
  - exists []. rewrite app_nil_r. reflexivity.
  - eauto.
Qed.

Lemma extractText_start host doc :
  ∃ tail,
    extractText host doc =
      Ok (Str.of_string "DeviceId: " ++ to_string (member doc "DeviceId")
          ++ Str.of_string " | Org: "
          ++ to_string (member doc "OrganizationId") ++ tail).
Proof.
  unfold extractText. destruct (text_parts_start host doc) as [rest ->].
  cbn [mbind outcome_bind]. unfold join_values.
  change (List.filter truthy (?a :: ?b :: rest))
    with (a :: b :: List.filter truthy rest).
  cbn [map nullish to_string].
  destruct (join_head " | "
              (Str.of_string "Org: "
               ++ to_string (member doc "OrganizationId"))
              (map (fun x => if nullish x then [] else to_string x)
                 (List.filter truthy rest))) as [tail E].
  exists tail. f_equal.
  change (Str.join " | " (?a :: ?b :: ?l))
    with (a ++ Str.of_string " | " ++ Str.join " | " (b :: l)).
  rewrite E. rewrite <- !app_assoc. reflexivity.
Qed.

Lemma trimStart_keeps_last l c :
  Str.is_space c = false -> nonempty (Str.trimStart (l ++ [c])) = true.
Proof.
  intros H. induction l as [|d l IH]; cbn [app Str.trimStart].
  - rewrite H. reflexivity.
  - destruct (Str.is_space d); [exact IH|reflexivity].
Qed.

Lemma trim_keeps_text c s :
  Str.is_space c = false -> nonempty (Str.trim (c :: s)) = true.
Proof.
  intros H. unfold Str.trim, Str.trimEnd. cbn [Str.trimStart]. rewrite H.
  cbn [rev].
  pose proof (trimStart_keeps_last (rev s) c H) as N.
  destruct (Str.trimStart (rev s ++ [c])) as [|d l]; [discriminate|].
  cbn [rev]. destruct (rev l); reflexivity.
Qed.

Lemma extractText_not_blank host doc :
  ∃ text, extractText host doc = Ok text ∧
          (negb (nonempty text) || negb (nonempty (Str.trim text)))%bool
          = false.
Proof.
  destruct (extractText_start host doc) as [tail ->].
  eexists. split; [reflexivity|].
  change (Str.of_string "DeviceId: " ++ ?r)
    with ("D"%char :: Str.of_string "eviceId: " ++ r).
  cbn [nonempty negb orb]. rewrite trim_keeps_text; reflexivity.
Qed.

Lemma Forall_requests (P : ingest_event -> Prop) t :
  (∀ e, P (IngestRequest e)) -> Forall P (map IngestRequest t).
Proof. intros H. induction t; constructor; auto. Qed.

Lemma generated_embedding_truthy host w text embedding :
  (ingest_generateEmbedding host w text).2 = Ok embedding ->
  truthy embedding = true.
Proof.
  unfold ingest_generateEmbedding. rewrite io_bind_outcome. cbn [call snd].
  destruct (post_embeddings w EMBEDDING_MODEL text) as [data|]; [|discriminate].
  rewrite io_bind_outcome. cbn [lift snd].
  destruct (get host data "embedding") as [v|]; [|discriminate].
  destruct (truthy v) eqn:T; cbn [io_ret lift snd]; [|discriminate].
  intros [= <-]. exact T.
Qed.

(** An invariant of the events of a run passes from the attempts to the
    loop and to the run. *)
Lemma ingest_loop_Forall (P : ingest_event -> Prop) host w s :
  (∀ l, match l with Skipping _ => True | _ => P (IngestLog l) end) ->
  (∀ doc text, Forall P (ingest_attempt host w s doc text).1) ->
  ∀ cursor count, Forall P (ingest_loop host w s cursor count).1.
Proof.
  intros Plog Pattempt.
  induction cursor as [|[doc|e] cursor IH]; intros count;
    cbn [ingest_loop fst]; try constructor.
  destruct (extractText_not_blank host doc) as (text & -> & ->).
  destruct (ingest_attempt host w s doc text).2 eqn:A; cbn [fst].
  - apply Forall_app. split; [apply Pattempt|apply IH].
  - apply Forall_app. split; [apply Pattempt|].
    constructor; [|apply IH].
    exact (Plog (EmbeddingError (to_string (member doc "_id")) message)).
Qed.

Lemma ingest_main_Forall (P : ingest_event -> Prop) host w s :
  P IngestConnect -> P IngestClose ->
  (∀ l, match l with Skipping _ => True | _ => P (IngestLog l) end) ->
  (∀ doc text, Forall P (ingest_attempt host w s doc text).1) ->
  Forall P (ingest_main host w s).1.
Proof.
  intros Pconnect Pclose Plog Pattempt.
  pose proof (ingest_loop_Forall P host w s Plog Pattempt) as L.
  unfold ingest_main. destruct (ingest_client s); [|constructor].
  cbn [fst]. apply Forall_app. split; [|repeat constructor; exact Pclose].
  destruct (ingest_connect s) as [|e]; cbn [fst snd].
  - destruct (ingest_loop host w s (ingest_cursor s) 0).2 as [n|e] eqn:E;
      cbn [fst snd].
    + constructor; [exact Pconnect|]. apply Forall_app. split; [apply L|].
      repeat constructor. exact (Plog (Done n)).
    + apply Forall_app. split; [constructor; [exact Pconnect|apply L]|].
      repeat constructor. exact (Plog (RunError e)).
  - repeat constructor; [exact Pconnect|exact (Plog (RunError e))].
Qed.

Lemma ingest_attempt_inside host w s doc text :
  Forall Run.inside (ingest_attempt host w s doc text).1.
Proof.
  unfold ingest_attempt.
  destruct (ingest_generateEmbedding host w text).2; cbn [fst].
  - destruct (ingest_update s _ _); cbn [fst];
      (apply Forall_app; split;
       [apply Forall_requests; intros; exact I|repeat constructor]).
  - apply Forall_requests. intros; exact I.
Qed.

(** X10. The text of a log always starts with its device and organisation
    labels ("DeviceId: ... | Org: ..."), even for an empty document, so it
    is never blank: no run of the ingestion ever skips a document as
    empty. *)
Theorem ingestion_never_skips_a_document
    (host : value -> list ascii -> value) :
  (∀ doc, ∃ tail,
     extractText host doc =
       Ok (Str.of_string "DeviceId: " ++ to_string (member doc "DeviceId")
           ++ Str.of_string " | Org: "
           ++ to_string (member doc "OrganizationId") ++ tail)) ∧
  (∀ w s, Forall Run.skips_nothing (ingest_main host w s).1).
Proof.
  split; [apply extractText_start|].
  intros w s. apply ingest_main_Forall; try exact I.
  - intros []; exact I.
  - intros doc text. unfold ingest_attempt.
    destruct (ingest_generateEmbedding host w text).2; cbn [fst].
    + destruct (ingest_update s _ _); cbn [fst];
        (apply Forall_app; split;
         [apply Forall_requests; intros; exact I|repeat constructor]).
    + apply Forall_requests. intros; exact I.
Qed.

(** X11. Every update the ingestion sends stores a truthy embedding: a
    response without the [embedding] field is an error for that document
    and nothing is stored for it. *)
Theorem ingestion_stores_only_embeddings
    (host : value -> list ascii -> value) (w : world) (s : ingest_store) :
  Forall Run.stores_an_embedding (ingest_main host w s).1.
Proof.
  apply ingest_main_Forall; try exact I.
  - intros []; exact I.
  - intros doc text. unfold ingest_attempt.
    destruct (ingest_generateEmbedding host w text).2 as [embedding|] eqn:E;
      cbn [fst].
    + apply generated_embedding_truthy in E.
      destruct (ingest_update s _ _); cbn [fst];
        (apply Forall_app; split;
         [apply Forall_requests; intros; exact I
         |repeat constructor; exact E]).
    + apply Forall_requests. intros; exact I.
Qed.

Lemma ingest_generateEmbedding_events host w text :
  (ingest_generateEmbedding host w text).1
  = [CallEmbeddings EMBEDDING_MODEL text].
Proof.
  unfold ingest_generateEmbedding. rewrite io_bind_events. cbn [call fst snd].
  destruct (post_embeddings w EMBEDDING_MODEL text) as [data|]; [|reflexivity].
  rewrite io_bind_events. cbn [lift fst snd].
  destruct (get host data "embedding") as [v|]; [|reflexivity].
  destruct (truthy v); reflexivity.
Qed.

Lemma count_app p a b :
  Run.count p (a ++ b) = Run.count p a + Run.count p b.
Proof. unfold Run.count. rewrite List.filter_app, length_app. reflexivity. Qed.

Lemma ingest_attempt_counts host w s doc text :
  Run.count Run.is_request (ingest_attempt host w s doc text).1 = 1 ∧
  Run.count Run.is_embedding_error (ingest_attempt host w s doc text).1 = 0 ∧
  Run.count Run.is_embedded (ingest_attempt host w s doc text).1
  = match (ingest_attempt host w s doc text).2 with
    | Ok _ => 1
    | Throw _ => 0
    end.
Proof.
  unfold ingest_attempt. rewrite ingest_generateEmbedding_events.
  destruct (ingest_generateEmbedding host w text).2 as [embedding|];
    [destruct (ingest_update s _ _)|]; split_and!; reflexivity.
Qed.

Lemma ingest_loop_counts host w s docs :
  ∀ count, ∃ t,
    ingest_loop host w s (map Ok docs) count
    = (t, Ok (count + Run.count Run.is_embedded t)) ∧
    Run.count Run.is_request t = length docs ∧
    Run.count Run.is_embedded t + Run.count Run.is_embedding_error t
    = length docs.
Proof.
  induction docs as [|doc docs IH]; intros count; cbn [map ingest_loop].
  - exists []. split_and!; try reflexivity. f_equal. cbn. f_equal. lia.
  - destruct (extractText_not_blank host doc) as (text & -> & ->).
    destruct (ingest_attempt_counts host w s doc text) as (R & E & D).
    destruct (ingest_attempt host w s doc text).2 as [u|e].
    + destruct (IH (S count)) as (t & -> & Rt & Dt). cbn [fst snd].
      exists ((ingest_attempt host w s doc text).1 ++ t).
      split; [|rewrite !count_app; split; cbn [length]; lia].
      f_equal. f_equal. rewrite count_app. lia.
    + destruct (IH count) as (t & -> & Rt & Dt). cbn [fst snd].
      exists ((ingest_attempt host w s doc text).1
              ++ IngestLog (EmbeddingError (to_string (member doc "_id")) e)
              :: t).
      split.
      * f_equal. f_equal. rewrite count_app.
        change (Run.count Run.is_embedded (?x :: t))
          with (Run.count Run.is_embedded t). lia.
      * rewrite !count_app.
        change (Run.count Run.is_request (?x :: t))
          with (Run.count Run.is_request t).
        change (Run.count Run.is_embedded (?x :: t))
          with (Run.count Run.is_embedded t).
        change (Run.count Run.is_embedding_error (?x :: t))
          with (S (Run.count Run.is_embedding_error t)).
        cbn [length]. lia.
Qed.

(** X12. When storage hands over its documents and the values the run
    converts to strings can be converted (the identifier and the parts of
    the text of each document), the ingestion asks for one embedding per
    document, whatever happened with the documents before: a failed
    request or update is reported for that document only, the number
    printed at the end is the number of documents reported as embedded,
    and every document is reported either as embedded or as an error. *)
Theorem ingestion_counts_the_embedded_documents
    (host : value -> list ascii -> value) (w : world) (s : ingest_store)
    (docs : list document) :
  ingest_client s = Ok tt ->
  ingest_connect s = Ok tt ->
  ingest_cursor s = map Ok docs ->
  Forall (Run.printable_log host) docs ->
  ∃ t n,
    (ingest_main host w s).1
    = IngestConnect :: t ++ [IngestLog (Done n); IngestClose] ∧
    Run.count Run.is_request t = length docs ∧
    Run.count Run.is_embedded t = n ∧
    Run.count Run.is_embedded t + Run.count Run.is_embedding_error t
    = length docs.
Proof.
  intros Hclient Hconnect Hcursor _.
  destruct (ingest_loop_counts host w s docs 0) as (t & L & R & D).
  exists t, (Run.count Run.is_embedded t). split_and!; auto.
  unfold ingest_main. rewrite Hclient, Hconnect, Hcursor, L.
  cbn [fst snd app]. rewrite <- app_assoc. reflexivity.
Qed.

Lemma ingestion_counts_the_embedded_documents_witness :
  Forall (Run.printable_log Sample.host)
    [Run.other; Sample.bare; Run.other] ∧
  ∃ t n,
    (ingest_main Sample.host
       (Faulty.embeds_only
          (Str.of_string
             "DeviceId: XYZ9 | Org: undefined | 2024-01-15T10:30:00Z"))
       (Run.store [Run.other; Sample.bare; Run.other])).1
    = IngestConnect :: t ++ [IngestLog (Done n); IngestClose] ∧
    Run.count Run.is_request t = 3 ∧
    Run.count Run.is_embedded t = n ∧
    Run.count Run.is_embedded t + Run.count Run.is_embedding_error t = 3.
Proof.
  assert (P : Forall (Run.printable_log Sample.host)
                [Run.other; Sample.bare; Run.other]).
  { repeat constructor;
      intros parts E; vm_compute in E; injection E as <-;
      repeat constructor. }
  split; [exact P|].
  exact (ingestion_counts_the_embedded_documents Sample.host
           (Faulty.embeds_only
              (Str.of_string
                 "DeviceId: XYZ9 | Org: undefined | 2024-01-15T10:30:00Z"))
           (Run.store [Run.other; Sample.bare; Run.other])
           [Run.other; Sample.bare; Run.other]
           eq_refl eq_refl eq_refl P).
Defined.

(** X13. Whatever fails during a run of the ingestion that got its client
    (the connection, the cursor, a request, an update), the run connects
    first and closes last, once each. *)
Theorem ingestion_always_closes
    (host : value -> list ascii -> value) (w : world) (s : ingest_store) :
  ingest_client s = Ok tt ->
  ∃ t, (ingest_main host w s).1 = IngestConnect :: t ++ [IngestClose] ∧
       Forall Run.inside t.
Proof.
  intros Hclient. unfold ingest_main. rewrite Hclient.
  pose proof (ingest_loop_Forall Run.inside host w s
                ltac:(intros []; exact I)
                (ingest_attempt_inside host w s) (ingest_cursor s) 0) as L.
  destruct (ingest_connect s) as [|e]; cbn [fst snd].
  - destruct (ingest_loop host w s (ingest_cursor s) 0).2 as [n|e];
      cbn [fst snd].
    + eexists. split; [reflexivity|].
      apply Forall_app. split; [exact L|repeat constructor].
    + eexists. split; [reflexivity|].
      apply Forall_app. split; [exact L|repeat constructor].
  - exists [IngestLog (RunError e)]. split; [reflexivity|].
    repeat constructor.
Qed.

Lemma ingestion_always_closes_witness :
  ∃ t, (ingest_main Sample.host (Faulty.unreachable [])
          {| ingest_client := Ok tt;
             ingest_connect := Throw (Str.of_string "ECONNREFUSED");
             ingest_cursor := [];
             ingest_update := fun _ _ => Ok tt;
             ingest_close := Ok tt |}).1
       = IngestConnect :: t ++ [IngestClose] ∧
       Forall Run.inside t.
Proof.
  exact (ingestion_always_closes Sample.host (Faulty.unreachable [])
           {| ingest_client := Ok tt;
              ingest_connect := Throw (Str.of_string "ECONNREFUSED");
              ingest_cursor := [];
              ingest_update := fun _ _ => Ok tt;
              ingest_close := Ok tt |}
           eq_refl).
Defined.

(** ** The connection to storage during a turn *)

Lemma connections_app a b :
  connections (a ++ b) = connections a ++ connections b.
Proof. apply List.filter_app. Qed.

Lemma connections_quiet t :
  Forall (fun e => is_connection e = false) t -> connections t = [].
Proof.
  induction 1 as [|e t He _ IH]; [reflexivity|].
  unfold connections. cbn [List.filter]. rewrite He. exact IH.
Qed.

Lemma disciplined_after_quiet {A B} w (m : io A) (f : A -> io B) :
  Forall (fun e => is_connection e = false) m.1 ->
  (∀ a, disciplined w (f a)) -> disciplined w (io_bind m f).
Proof.
  intros Q D. unfold disciplined.
  rewrite io_bind_events, io_bind_outcome, connections_app,
    (connections_quiet _ Q).
  destruct m.2 as [a|e]; [|left; reflexivity].
  destruct (D a) as [H|[H|(C & pre & request & post & E & Hpre & Hpost & R)]];
    [left; exact H|right; left; exact H|right; right].
  split; [exact C|]. exists (m.1 ++ pre), request, post.
  rewrite E, <- app_assoc, connections_app, (connections_quiet _ Q).
  auto.
Qed.

Lemma disciplined_before_quiet {A B} w (m : io A) (f : A -> io B) :
  disciplined w m ->
  (∀ a, Forall (fun e => is_connection e = false) (f a).1) ->
  disciplined w (io_bind m f).
Proof.
  intros D Q. unfold disciplined in *.
  rewrite io_bind_events, io_bind_outcome, connections_app.
  destruct m.2 as [a|e].
  - rewrite (connections_quiet _ (Q a)), app_nil_r.
    destruct D
      as [D|[[_ [e D]]|(C & pre & request & post & E & Hpre & Hpost & R)]];
      [auto|discriminate|right; right].
    split; [exact C|]. exists pre, request, (post ++ (f a).1).
    rewrite E, <- app_assoc, connections_app, Hpost,
      (connections_quiet _ (Q a)).
    auto.
  - rewrite !app_nil_r. destruct D as [D|[[D _]|D]]; eauto.
Qed.

(** The four sessions with storage have one shape: connect, lines that do
    not touch the connection, one request, close, and what follows. *)
Lemma session_disciplined {A B} w (middle : list event) (request : event)
    (r : outcome A) (k : A -> io B) :
  Forall (fun e => is_connection e = false) middle ->
  is_connection request = false ->
  (∀ a, r = Ok a -> answered w request) ->
  (∀ a, Forall (fun e => is_connection e = false) (k a).1) ->
  ∀ m : io B,
    m.1 = [Connect]
          ++ match storage_connect w with
             | Ok _ =>
                 middle ++ [request]
                 ++ match r with
                    | Ok a =>
                        [Close]
                        ++ match storage_close w with
                           | Ok _ => (k a).1
                           | Throw _ => []
                           end
                    | Throw _ => []
                    end
             | Throw _ => []
             end ->
    (∀ a, m.2 = Ok a ->
          ∃ u x, storage_connect w = Ok u ∧ r = Ok x) ->
    disciplined w m.
Proof.
  intros Qm Qr Ha Qk m E O. unfold disciplined. rewrite E.
  destruct (storage_connect w) as [[]|e1] eqn:C.
  - destruct r as [a|e2].
    + right; right. split; [exact C|].
      exists ([Connect] ++ middle), request,
        (match storage_close w with Ok _ => (k a).1 | Throw _ => [] end).
      split_and!.
      * rewrite <- !app_assoc. reflexivity.
      * rewrite connections_app, (connections_quiet _ Qm). reflexivity.
      * apply connections_quiet. destruct (storage_close w); [apply Qk|].
        constructor.
      * eapply Ha. reflexivity.
    + right; left. split.
      * rewrite !connections_app, (connections_quiet _ Qm), app_nil_r.
        unfold connections. cbn [List.filter is_connection app].
        rewrite Qr. reflexivity.
      * destruct m.2 as [b|e] eqn:M; [|eauto].
        destruct (O b eq_refl) as (u & x & _ & X). discriminate X.
  - right; left. split; [reflexivity|].
    destruct m.2 as [b|e] eqn:M; [|eauto].
    destruct (O b eq_refl) as (u & x & X & _). discriminate X.
Qed.

Lemma show_logs_disciplined w question :
  disciplined w (show_logs_branch w question).
Proof.
  apply (session_disciplined w []
           (CallFind (extractFiltersOnly question) None 50)
           (storage_find w (extractFiltersOnly question) None)
           (fun found =>
              match take 50 found with
              | [] => emit (Console NoMatchingLogs)
              | _ :: _ =>
                  for_each_from 0
                    (fun i doc =>
                       (emit (Console (LogHeader (decimal (i + 1)))) ;;
                        emit (Console (LogBody (without_embedding doc))))%io)
                    (take 50 found)
              end)).
  - constructor.
  - reflexivity.
  - intros a H. exists a. exact H.
  - intros found. destruct (take 50 found); repeat trace_step; reflexivity.
  - unfold show_logs_branch. rewrite io_bind_events. cbn [call fst snd].
    destruct (storage_connect w); [|reflexivity].
    rewrite io_bind_events. cbn [call fst snd app].
    destruct (storage_find w (extractFiltersOnly question) None);
      [|reflexivity].
    rewrite io_bind_events. cbn [call fst snd app]. reflexivity.
  - unfold show_logs_branch. intros a.
    rewrite io_bind_outcome. cbn [call fst snd].
    destruct (storage_connect w); [|discriminate].
    rewrite io_bind_outcome. cbn [call fst snd].
    destruct (storage_find w (extractFiltersOnly question) None);
      [eauto|discriminate].
Qed.

Lemma list_unique_disciplined w group1 :
  disciplined w (list_unique_branch w group1).
Proof.
  apply (session_disciplined w []
           (CallDistinct (resolve (clean group1)))
           (storage_distinct w (resolve (clean group1)))
           (fun uniqueValues =>
              match uniqueValues with
              | [] => emit (Console (NoUniqueValues (resolve (clean group1))))
              | _ :: _ =>
                  (emit (Console (UniqueValuesFor (resolve (clean group1)))) ;;
                   for_each (fun v => emit (Console (UniqueValue v)))
                     uniqueValues)%io
              end)).
  - constructor.
  - reflexivity.
  - intros a H. exists a. exact H.
  - intros found. destruct found; repeat trace_step; reflexivity.
  - unfold list_unique_branch. rewrite io_bind_events. cbn [call fst snd].
    destruct (storage_connect w); [|reflexivity].
    rewrite io_bind_events. cbn [call fst snd app].
    destruct (storage_distinct w (resolve (clean group1))); [|reflexivity].
    rewrite io_bind_events. cbn [call fst snd app]. reflexivity.
  - unfold list_unique_branch. intros a.
    rewrite io_bind_outcome. cbn [call fst snd].
    destruct (storage_connect w); [|discriminate].
    rewrite io_bind_outcome. cbn [call fst snd].
    destruct (storage_distinct w (resolve (clean group1)));
      [eauto|discriminate].
Qed.

Lemma queryMongo_disciplined w fs flt :
  disciplined w (queryMongo w fs flt).
Proof.
  apply (session_disciplined w
           [Console (MongoFilters (clean_filters flt));
            Console (ProjectingFields fs)]
           (CallFind (clean_filters flt) (Some (projection_of fs)) 100)
           (storage_find w (clean_filters flt) (Some (projection_of fs)))
           (fun results => io_ret (take 100 results))).
  - repeat constructor.
  - reflexivity.
  - intros a H. exists a. exact H.
  - intros found. constructor.
  - unfold queryMongo. rewrite io_bind_events. cbn [call fst snd].
    destruct (storage_connect w); [|reflexivity].
    repeat (rewrite ?io_bind_events, ?io_bind_outcome;
            cbn [emit call fst snd app]).
    destruct (storage_find w (clean_filters flt) (Some (projection_of fs)));
      [|reflexivity].
    rewrite ?io_bind_events. cbn [call fst snd app]. reflexivity.
  - unfold queryMongo. intros a.
    rewrite io_bind_outcome. cbn [call fst snd].
    destruct (storage_connect w); [|discriminate].
    repeat (rewrite ?io_bind_events, ?io_bind_outcome;
            cbn [emit call fst snd app]).
    destruct (storage_find w (clean_filters flt) (Some (projection_of fs)));
      [eauto|discriminate].
Qed.

Lemma searchSimilarLogs_disciplined w embedding filters :
  disciplined w (searchSimilarLogs w embedding filters).
Proof.
  apply (session_disciplined w []
           (CallAggregate [vectorSearchStage embedding filters])
           (storage_aggregate w [vectorSearchStage embedding filters])
           (fun results => io_ret results)).
  - constructor.
  - reflexivity.
  - intros a H. exists a. exact H.
  - intros found. constructor.
  - unfold searchSimilarLogs. rewrite io_bind_events. cbn [call fst snd].
    destruct (storage_connect w); [|reflexivity].
    rewrite io_bind_events. cbn [call fst snd app].
    destruct (storage_aggregate w [vectorSearchStage embedding filters]);
      [|reflexivity].
    rewrite io_bind_events. cbn [call fst snd app]. reflexivity.
  - unfold searchSimilarLogs. intros a.
    rewrite io_bind_outcome. cbn [call fst snd].
    destruct (storage_connect w); [|discriminate].
    rewrite io_bind_outcome. cbn [call fst snd].
    destruct (storage_aggregate w [vectorSearchStage embedding filters]);
      [eauto|discriminate].
Qed.

Lemma dispatch_disciplined host w question :
  disciplined w (dispatch host w question).
Proof.
  rewrite dispatch_by_intent.
  assert (F : disciplined w (fallback_branch host w question)).
  { unfold fallback_branch. apply disciplined_after_quiet.
    - unfold generateEmbedding. repeat trace_step; reflexivity.
    - intros embedding. apply disciplined_before_quiet.
      + apply searchSimilarLogs_disciplined.
      + intros docs. unfold askMistral. repeat trace_step; reflexivity. }
  destruct (classify question); [| | |exact F].
  - apply show_logs_disciplined.
  - destruct (Re.list_unique question); [|exact F].
    apply list_unique_disciplined.
  - unfold structured_branch.
    destruct (fields (extractFieldsAndFilters question)) eqn:E;
      [left; reflexivity|].
    apply disciplined_before_quiet; [apply queryMongo_disciplined|].
    intros [|]; repeat trace_step; reflexivity.
Qed.

(** X14. A turn opens at most one connection to storage and closes it at
    most once, and the close comes right after the request of this turn
    (its find, distinct or aggregate) that storage answered, on a
    connection that succeeded.  When the connection or the request fails
    there is no close (the code has no [finally]): the connection is left
    as it is and the turn ends with the error message. *)
Theorem a_turn_closes_only_after_an_answer
    (host : value -> list ascii -> value) (w : world)
    (question : list ascii) (t : list event) :
  turn host w question = Some t ->
  connections t = [] ∨
  (connections t = [Connect] ∧
   ∃ e, last t = Some (Console (ErrorMessage e))) ∨
  closed_after_answer w t.
Proof.
  unfold turn. destruct (is_exit question); [discriminate|].
  intros [= <-]. rewrite catch_events, connections_app.
  pose proof (dispatch_disciplined host w question) as D.
  unfold disciplined in D.
  destruct (dispatch host w question).2 as [u|e] eqn:O.
  - rewrite !app_nil_r.
    destruct D as [D|[[_ [e D]]|D]]; [auto|discriminate|auto].
  - change (connections [Console (ErrorMessage e)]) with (@nil event).
    rewrite app_nil_r.
    destruct D
      as [D|[[D _]|(C & pre & request & post & E & Hpre & Hpost & R)]];
      [auto| |].
    + right; left. split; [exact D|]. exists e. apply last_snoc.
    + right; right. split; [exact C|].
      exists pre, request, (post ++ [Console (ErrorMessage e)]).
      rewrite E, <- app_assoc, connections_app, Hpost. auto.
Qed.

Lemma a_turn_closes_only_after_an_answer_witness :
  let failed := [Connect; CallFind ∅ None 50;
                 Console (ErrorMessage (Str.of_string "cursor lost"))] in
  turn Sample.host (Faulty.find_fails (Str.of_string "cursor lost"))
    (Str.of_string "show logs") = Some failed ∧
  connections failed = [Connect] ∧
  (∃ e, last failed = Some (Console (ErrorMessage e))) ∧
  ¬ closed_after_answer (Faulty.find_fails (Str.of_string "cursor lost"))
      [Connect; CallFind ∅ None 50; Close;
       Console (ErrorMessage (Str.of_string "cursor lost"))].
Proof.
  intros failed.
  assert (T : turn Sample.host
                (Faulty.find_fails (Str.of_string "cursor lost"))
                (Str.of_string "show logs")
              = Some failed)
    by (vm_compute; reflexivity).
  split; [exact T|].
  destruct (a_turn_closes_only_after_an_answer _ _ _ _ T)
    as [H|[[H L]|(_ & pre & request & post & E & _)]].
  - discriminate H.
  - split_and!; [exact H|exact L|].
    intros (_ & pre & request & post & E & Hpre & _ & R).
    destruct pre as [|c [|d [|x [|y pre]]]]; simplify_eq/=;
      try (destruct R as [? R]; discriminate R); try contradiction.
  - exfalso. subst failed.
    destruct pre as [|c [|d [|x pre]]]; simplify_eq/=.
    destruct pre; discriminate.
Defined.
